(** * Motion planning on an occupancy grid: a shallow embedding

    The development follows the two Python sources of the repository:

    - [p_u.py] (imported as [planning_utils]): [create_grid], [Action],
      [valid_actions], [a_star], [collinearity_check] and [prune_path];
    - [motion_planning.py]: the [States] enumeration and the
      [MotionPlanning] event handlers.

    Conventions.  Python exceptions are values of [exn]; a computation that
    may raise returns a [result], and a loop takes a [fuel] argument whose
    exhaustion is the error [OutOfFuel].  Real-valued data (obstacle
    records, telemetry, priorities) are exact rationals [Q] where the source
    computes in floating point; grid cells and path points are pairs of
    integers, as the planner produces them.  The Euclidean [heuristic] is
    not rational: [a_star] takes its heuristic as an argument, as in the
    source, and [plan_path] is stated for an arbitrary one.  The determinant
    of [collinearity_check] is computed by the library routine
    [np.linalg.det] in double precision; its rounding is not fixed here:
    [collinearity_check], [prune_path] and [plan_path] take the routine as
    an argument [np_det], and what depends on its answers is stated under the
    hypothesis that it decides collinearity as exact arithmetic does on the
    points at hand.  Console output
    ([print]) is not modelled.  The header of [collinearity_check] lacks its
    colon in the source; the function is modelled as if the colon were
    there. *)

From Stdlib Require Import ZArith QArith Qround Qabs Qminmax Lia Lqa Bool List.
From stdpp Require Import base decidable option list gmap.
Import ListNotations.
Local Open Scope Z_scope.

(** ** Exceptions and results *)

Inductive exn : Type :=
  | KeyError
  | IndexError
  | ValueError
  | UnboundLocalError
  | OutOfFuel.

Inductive result (A : Type) : Type :=
  | Ok (a : A)
  | Raise (e : exn).
Arguments Ok {A} a.
Arguments Raise {A} e.

Definition bind {A B : Type} (r : result A) (k : A -> result B) : result B :=
  match r with
  | Ok a => k a
  | Raise e => Raise e
  end.

Notation "'let*' x ':=' r 'in' k" := (bind r (fun x => k))
  (at level 10, x pattern, r at level 100, k at level 200).

(** [x < y] on rationals, as a boolean. *)
Definition Qltb (x y : Q) : bool :=
  match (x ?= y)%Q with
  | Lt => true
  | _ => false
  end.

(** ** Path points and the collinearity test *)

Abbreviation node := (Z * Z)%type (only parsing).

Definition node_eqb (a b : node) : bool :=
  (fst a =? fst b) && (snd a =? snd b).

(** [point p] is the row [[p[0], p[1], 1.]]. *)
Definition point (p : node) : Z * Z * Z := (fst p, snd p, 1).

(** [np.linalg.det(np.concatenate((p1, p2, p3), 0))]: the rows are
    converted to doubles and the determinant is computed by the numerical
    library in double precision.  The result is a double, that is a
    rational; which one depends on the rounding of the routine, so the
    routine is an argument of the functions that call it. *)
Abbreviation determinant := (Z * Z * Z -> Z * Z * Z -> Z * Z * Z -> Q)%type (only parsing).

(** The determinant of the three rows in exact arithmetic, which the
    routine approximates. *)
Definition det (p1 p2 p3 : Z * Z * Z) : Z :=
  let '(a1, a2, a3) := p1 in
  let '(b1, b2, b3) := p2 in
  let '(c1, c2, c3) := p3 in
  a1 * (b2 * c3 - b3 * c2) - a2 * (b1 * c3 - b3 * c1) + a3 * (b1 * c2 - b2 * c1).

(** A routine without rounding error. *)
Definition exact_det (p1 p2 p3 : Z * Z * Z) : Q := inject_Z (det p1 p2 p3).

(** The default [epsilon=1e-6]: the double nearest to one millionth, which
    is 4722366482869645 / 2^72. *)
Definition epsilon : Q := 4722366482869645 # 4722366482869645213696.

(** [np.abs(det) < epsilon] *)
Definition collinearity_check (np_det : determinant) (p1 p2 p3 : Z * Z * Z) : bool :=
  Qltb (Qabs (np_det p1 p2 p3)) epsilon.

(** ** prune_path *)

(** [list.remove(v)]: drops the first element equal to [v]. *)
Fixpoint list_remove (v : node) (l : list node) : list node :=
  match l with
  | [] => []
  | x :: t => if node_eqb x v then t else x :: list_remove v t
  end.

(** The [while i < len(pruned_path)-2] loop.  [fuel] counts the iterations
    the model may still take. *)
Fixpoint prune_loop (np_det : determinant) (fuel : nat) (i : nat) (l : list node)
  : result (list node) :=
  if Z.of_nat i <? Z.of_nat (length l) - 2 then
    match fuel with
    | O => Raise OutOfFuel
    | S f =>
        match l !! i, l !! (i + 1)%nat, l !! (i + 2)%nat with
        | Some p1, Some p2, Some p3 =>
            if collinearity_check np_det (point p1) (point p2) (point p3)
            then prune_loop np_det f i (list_remove p2 l)
            else prune_loop np_det f (i + 1) l
        | _, _, _ => Raise IndexError
        end
    end
  else Ok l.

(** [path] is [None] for Python's [None].  When the guard fails the local
    [pruned_path] was never bound and the [return] raises. *)
Definition prune_path (np_det : determinant) (path : option (list node))
  : result (list node) :=
  match path with
  | Some l => prune_loop np_det (length l) 0 l
  | None => Raise UnboundLocalError
  end.

(** ** Occupancy grid *)

(** A two-dimensional [ndarray]: its shape and its cells.  [cells] is read
    only at indices inside the shape. *)
Record ndarray : Type := {
  shape0 : Z;
  shape1 : Z;
  cells : Z -> Z -> Z
}.

(** Integer indexing along an axis of length [len]: negative indices count
    from the end, anything else out of range raises. *)
Definition norm_index (len i : Z) : option Z :=
  if (0 <=? i) && (i <? len) then Some i
  else if (- len <=? i) && (i <? 0) then Some (i + len)
  else None.

(** [grid[x, y]] *)
Definition getitem (grid : ndarray) (x y : Z) : result Z :=
  match norm_index (shape0 grid) x, norm_index (shape1 grid) y with
  | Some i, Some j => Ok (cells grid i j)
  | _, _ => Raise IndexError
  end.

(** Bounds of the slice [start:stop] along an axis of length [len]. *)
Definition slice_index (len i : Z) : Z :=
  if i <? 0 then Z.max (i + len) 0 else Z.min i len.

Definition in_slice (len start stop i : Z) : bool :=
  (slice_index len start <=? i) && (i <? slice_index len stop).

(** [grid[a:b, c:d] = v] *)
Definition setslice (grid : ndarray) (a b c d v : Z) : ndarray :=
  {| shape0 := shape0 grid;
     shape1 := shape1 grid;
     cells := fun i j =>
       if in_slice (shape0 grid) a b i && in_slice (shape1 grid) c d j
       then v else cells grid i j |}.

Definition zeros (n m : Z) : ndarray :=
  {| shape0 := n; shape1 := m; cells := fun _ _ => 0 |}.

(** ** create_grid *)

(** One row of the obstacle table. *)
Record obstacle : Type := {
  north : Q;
  east : Q;
  alt : Q;
  d_north : Q;
  d_east : Q;
  d_alt : Q
}.

(** [np.min] and [np.max] of a non-empty column. *)
Definition np_min (x : Q) (xs : list Q) : Q := fold_left Qmin xs x.
Definition np_max (x : Q) (xs : list Q) : Q := fold_left Qmax xs x.

(** [np.clip(v, lo, hi)] is [minimum(maximum(v, lo), hi)]. *)
Definition clip (v lo hi : Q) : Q := Qmin (Qmax v lo) hi.

(** [int(v)] truncates towards zero. *)
Definition int (v : Q) : Z := Z.quot (Qnum v) (Z.pos (Qden v)).

(** The list [obstacle] of the loop body: the clipped bounds of the cell
    range, north first. *)
Definition footprint (north_min east_min north_size : Z) (safety_distance : Q)
    (o : obstacle) : Z * Z * Z * Z :=
  let hi := inject_Z (north_size - 1) in
  (int (clip (north o - d_north o - safety_distance - inject_Z north_min) 0 hi),
   int (clip (north o + d_north o + safety_distance - inject_Z north_min) 0 hi),
   int (clip (east o - d_east o - safety_distance - inject_Z east_min) 0 hi),
   int (clip (east o - d_east o + safety_distance - inject_Z east_min) 0 hi)).

(** The guard of the loop body. *)
Definition rendered (drone_altitude safety_distance : Q) (o : obstacle) : bool :=
  Qltb drone_altitude (alt o + d_alt o + safety_distance).

(** The body of the loop over the rows of [data]. *)
Definition render (north_min east_min north_size : Z) (drone_altitude safety_distance : Q)
    (grid : ndarray) (o : obstacle) : ndarray :=
  if rendered drone_altitude safety_distance o then
    let '(o0, o1, o2, o3) := footprint north_min east_min north_size safety_distance o in
    setslice grid o0 (o1 + 1) o2 (o3 + 1) 1
  else grid.

Definition create_grid (data : list obstacle) (drone_altitude safety_distance : Q)
  : result (ndarray * Z * Z) :=
  match data with
  | [] => Raise ValueError
  | o :: os =>
      let north_min :=
        Qfloor (np_min (north o - d_north o) (map (fun r => north r - d_north r) os)%Q) in
      let north_max :=
        Qceiling (np_max (north o + d_north o) (map (fun r => north r + d_north r) os)%Q) in
      let east_min :=
        Qfloor (np_min (east o - d_east o) (map (fun r => east r - d_east r) os)%Q) in
      let east_max :=
        Qceiling (np_max (east o + d_east o) (map (fun r => east r + d_east r) os)%Q) in
      let north_size := north_max - north_min in
      let east_size := east_max - east_min in
      if (north_size <? 0) || (east_size <? 0) then Raise ValueError
      else
        let grid :=
          fold_left (render north_min east_min north_size drone_altitude safety_distance)
                    data (zeros north_size east_size) in
        Ok (grid, north_min, east_min)
  end.

(** ** Actions *)

Inductive Action : Type := WEST | EAST | NORTH | SOUTH.

Definition value (a : Action) : Z * Z * Z :=
  match a with
  | WEST => (0, -1, 1)
  | EAST => (0, 1, 1)
  | NORTH => (-1, 0, 1)
  | SOUTH => (1, 0, 1)
  end.

Definition cost (a : Action) : Z := snd (value a).
Definition delta (a : Action) : node := fst (value a).

Definition Action_eqb (a b : Action) : bool :=
  match a, b with
  | WEST, WEST | EAST, EAST | NORTH, NORTH | SOUTH, SOUTH => true
  | _, _ => false
  end.

(** [valid_actions.remove(a)] *)
Fixpoint actions_remove (a : Action) (l : list Action) : list Action :=
  match l with
  | [] => []
  | x :: t => if Action_eqb x a then t else x :: actions_remove a t
  end.

(** [off or grid[x, y] == 1], with Python's short-circuit [or]. *)
Definition blocked (off : bool) (grid : ndarray) (x y : Z) : result bool :=
  if off then Ok true
  else let* c := getitem grid x y in Ok (c =? 1).

Definition valid_actions (grid : ndarray) (current_node : node) : result (list Action) :=
  let valid := [WEST; EAST; NORTH; SOUTH] in
  let n := shape0 grid - 1 in
  let m := shape1 grid - 1 in
  let '(x, y) := current_node in
  let* b := blocked (x - 1 <? 0) grid (x - 1) y in
  let valid := if b then actions_remove NORTH valid else valid in
  let* b := blocked (x + 1 >? n) grid (x + 1) y in
  let valid := if b then actions_remove SOUTH valid else valid in
  let* b := blocked (y - 1 <? 0) grid x (y - 1) in
  let valid := if b then actions_remove WEST valid else valid in
  let* b := blocked (y + 1 >? m) grid x (y + 1) in
  let valid := if b then actions_remove EAST valid else valid in
  Ok valid.

(** ** The frontier: [queue.PriorityQueue] of [(priority, node)] tuples *)

Abbreviation entry := (Q * (Z * Z))%type (only parsing).

(** Python's [<] on node tuples: lexicographic. *)
Definition node_ltb (a b : node) : bool :=
  (fst a <? fst b) || ((fst a =? fst b) && (snd a <? snd b)).

(** Python's [<] on [(priority, node)] tuples. *)
Definition entry_ltb (a b : entry) : bool :=
  match (fst a ?= fst b)%Q with
  | Lt => true
  | Eq => node_ltb (snd a) (snd b)
  | Gt => false
  end.

(** The queue holds its entries in insertion order. *)
Definition put (q : list entry) (e : entry) : list entry := q ++ [e].

(** [get] retrieves the lowest entry, the one [min(entries)] would return,
    and leaves the others in place. *)
Fixpoint get (q : list entry) : option (entry * list entry) :=
  match q with
  | [] => None
  | e :: t =>
      match get t with
      | None => Some (e, [])
      | Some (m, t') => if entry_ltb m e then Some (m, e :: t') else Some (e, t)
      end
  end.

(** ** a_star *)

(** An element of [visited]: the set is built by [set(start)], which holds
    the two coordinates of [start] as integers, and later receives node
    tuples. *)
Abbreviation pyobj := (Z + Z * Z)%type (only parsing).

Record frontier : Type := {
  queue : list entry;
  visited : gset pyobj;
  branch : gmap node (Z * node * Action)
}.

(** The body of [for action in valid_actions(grid, current_node)]. *)
Definition expand (h : node -> node -> Q) (goal current_node : node) (current_cost : Z)
    (st : frontier) (action : Action) : frontier :=
  let da := delta action in
  let next_node := (fst current_node + fst da, snd current_node + snd da) in
  let branch_cost := current_cost + cost action in
  let queue_cost := (inject_Z branch_cost + h next_node goal)%Q in
  if bool_decide (inr next_node ∈ visited st) then st
  else {| queue := put (queue st) (queue_cost, next_node);
          visited := visited st ∪ {[ inr next_node ]};
          branch := <[ next_node := (branch_cost, current_node, action) ]> (branch st) |}.

(** The [while not queue.empty()] loop; the boolean is [found]. *)
Fixpoint search (fuel : nat) (grid : ndarray) (h : node -> node -> Q)
    (start goal : node) (st : frontier) : result (bool * frontier) :=
  match get (queue st) with
  | None => Ok (false, st)
  | Some (item, rest) =>
      match fuel with
      | O => Raise OutOfFuel
      | S f =>
          let current_node := snd item in
          let* current_cost :=
            if node_eqb current_node start then Ok 0
            else match branch st !! current_node with
                 | Some (c, _, _) => Ok c
                 | None => Raise KeyError
                 end in
          let st := {| queue := rest; visited := visited st; branch := branch st |} in
          if node_eqb current_node goal then Ok (true, st)
          else
            let* acts := valid_actions grid current_node in
            search f grid h start goal
                   (fold_left (expand h goal current_node current_cost) acts st)
      end
  end.

(** The [while branch[n][1] != start] loop followed by the last [append]. *)
Fixpoint retrace (fuel : nat) (br : gmap node (Z * node * Action))
    (start n : node) (path : list node) : result (list node) :=
  match br !! n with
  | None => Raise KeyError
  | Some (_, p, _) =>
      if node_eqb p start then Ok (path ++ [p])
      else match fuel with
           | O => Raise OutOfFuel
           | S f => retrace f br start p (path ++ [p])
           end
  end.

(** The frontier before the loop: [start] alone in the queue, the
    coordinates of [start] in [visited], nothing in [branch]. *)
Definition initial (start : node) : frontier :=
  {| queue := put [] (0%Q, start);
     visited := {[ inl (fst start) ]} ∪ {[ inl (snd start) ]};
     branch := ∅ |}.

(** Iterations granted to the search loop: one per cell a node tuple can
    address through non-negative or negative indices, plus one for
    [start]; [retrace] is granted one per entry of [branch]. *)
Definition search_fuel (grid : ndarray) : nat :=
  S (Z.to_nat (4 * shape0 grid * shape1 grid)).

Definition a_star (grid : ndarray) (h : node -> node -> Q) (start goal : node)
  : result (list node * Z) :=
  let* r := search (search_fuel grid) grid h start goal (initial start) in
  let '(found, st) := r in
  if (found : bool) then
    match branch st !! goal with
    | None => Raise KeyError
    | Some (path_cost, _, _) =>
        let* path := retrace (size (branch st)) (branch st) start goal [goal] in
        Ok (reverse path, path_cost)
    end
  else Ok (reverse [], 0).

(** ** Flight states and the vehicle interface *)

Inductive States : Type :=
  | MANUAL
  | ARMING
  | TAKEOFF
  | WAYPOINT
  | LANDING
  | DISARMING
  | PLANNING.

(** Requests the handlers make to the vehicle and to the connection. *)
Inductive command : Type :=
  | arm
  | take_control
  | takeoff (altitude : Q)
  | cmd_position (n e a heading : Q)
  | land
  | disarm
  | release_control
  | stop
  | set_home_position (longitude latitude altitude : Q)
  | write (waypoints : list (list Q)).

(** The attributes of a [MotionPlanning] object the handlers read or write.
    [armed] to [altitude] are telemetry kept by the [Drone] base class,
    [armed] and [guided] being Python [bool]s; [issued] records the requests
    made so far, oldest first. *)
Record MotionPlanning : Type := {
  target_position : list Q;
  waypoints : list (list Q);
  in_mission : bool;
  flight_state : States;
  armed : bool;
  guided : bool;
  local_position : Q * Q * Q;
  local_velocity : Q * Q * Q;
  global_position : Q * Q * Q;
  global_home : Q * Q * Q;
  altitude : Q;
  issued : list command
}.

Definition set_flight_state (s : States) (d : MotionPlanning) : MotionPlanning :=
  {| target_position := target_position d; waypoints := waypoints d;
     in_mission := in_mission d; flight_state := s;
     armed := armed d; guided := guided d;
     local_position := local_position d; local_velocity := local_velocity d;
     global_position := global_position d; global_home := global_home d;
     altitude := altitude d; issued := issued d |}.

Definition set_target_position (t : list Q) (d : MotionPlanning) : MotionPlanning :=
  {| target_position := t; waypoints := waypoints d;
     in_mission := in_mission d; flight_state := flight_state d;
     armed := armed d; guided := guided d;
     local_position := local_position d; local_velocity := local_velocity d;
     global_position := global_position d; global_home := global_home d;
     altitude := altitude d; issued := issued d |}.

Definition set_waypoints (w : list (list Q)) (d : MotionPlanning) : MotionPlanning :=
  {| target_position := target_position d; waypoints := w;
     in_mission := in_mission d; flight_state := flight_state d;
     armed := armed d; guided := guided d;
     local_position := local_position d; local_velocity := local_velocity d;
     global_position := global_position d; global_home := global_home d;
     altitude := altitude d; issued := issued d |}.

Definition set_in_mission (b : bool) (d : MotionPlanning) : MotionPlanning :=
  {| target_position := target_position d; waypoints := waypoints d;
     in_mission := b; flight_state := flight_state d;
     armed := armed d; guided := guided d;
     local_position := local_position d; local_velocity := local_velocity d;
     global_position := global_position d; global_home := global_home d;
     altitude := altitude d; issued := issued d |}.

Definition issue (c : command) (d : MotionPlanning) : MotionPlanning :=
  {| target_position := target_position d; waypoints := waypoints d;
     in_mission := in_mission d; flight_state := flight_state d;
     armed := armed d; guided := guided d;
     local_position := local_position d; local_velocity := local_velocity d;
     global_position := global_position d; global_home := global_home d;
     altitude := altitude d; issued := issued d ++ [c] |}.

(** How a handler ends: normally, or by an exception that leaves the
    object as it was when the exception was raised. *)
Inductive outcome : Type :=
  | Normal (d : MotionPlanning)
  | Raised (e : exn) (d : MotionPlanning).

(** [l[i] = v] on a sequence. *)
Fixpoint setitem (l : list Q) (i : nat) (v : Q) : option (list Q) :=
  match l, i with
  | [], _ => None
  | _ :: t, O => Some (v :: t)
  | x :: t, S i => option_map (cons x) (setitem t i v)
  end.

(** Squared Euclidean norm of a pair; [np.linalg.norm(v) < 1.0] is
    rendered as [norm2 v < 1]. *)
Definition norm2 (x y : Q) : Q := (x * x + y * y)%Q.

(** ** MotionPlanning transitions *)

Definition arming_transition (d : MotionPlanning) : outcome :=
  let d := set_flight_state ARMING d in
  let d := issue arm d in
  Normal (issue take_control d).

Definition takeoff_transition (d : MotionPlanning) : outcome :=
  let d := set_flight_state TAKEOFF d in
  match nth_error (target_position d) 2 with
  | Some a => Normal (issue (takeoff a) d)
  | None => Raised IndexError d
  end.

Definition waypoint_transition (d : MotionPlanning) : outcome :=
  let d := set_flight_state WAYPOINT d in
  match waypoints d with
  | [] => Raised IndexError d
  | w :: rest =>
      let d := set_target_position w (set_waypoints rest d) in
      match w with
      | n :: e :: a :: heading :: _ => Normal (issue (cmd_position n e a heading) d)
      | _ => Raised IndexError d
      end
  end.

Definition landing_transition (d : MotionPlanning) : outcome :=
  let d := set_flight_state LANDING d in
  Normal (issue land d).

Definition disarming_transition (d : MotionPlanning) : outcome :=
  let d := set_flight_state DISARMING d in
  let d := issue disarm d in
  Normal (issue release_control d).

Definition manual_transition (d : MotionPlanning) : outcome :=
  let d := set_flight_state MANUAL d in
  let d := issue stop d in
  Normal (set_in_mission false d).

Definition send_waypoints (d : MotionPlanning) : MotionPlanning :=
  issue (write (waypoints d)) d.

(** ** plan_path and the telemetry handlers *)

(** What [np.loadtxt(..., skiprows=2)] returns for the rows of the table:
    two or more rows come back as a two-dimensional array; a single row is
    squeezed to the one-dimensional array of its six entries, and no row at
    all gives an empty one-dimensional array. *)
Inductive loaded : Type :=
  | Array2 (rows : list obstacle)
  | Array1 (entries : list Q).

Definition loadtxt (rows : list obstacle) : loaded :=
  match rows with
  | [] => Array1 []
  | [o] => Array1 [north o; east o; alt o; d_north o; d_east o; d_alt o]
  | _ => Array2 rows
  end.

(** [create_grid] called on such an array: on a one-dimensional one its
    first line, which reads [data[:,0]], raises IndexError. *)
Definition create_grid_on (data : loaded) (drone_altitude safety_distance : Q)
  : result (ndarray * Z * Z) :=
  match data with
  | Array2 rows => create_grid rows drone_altitude safety_distance
  | Array1 _ => Raise IndexError
  end.

Section Planning.

(** [np.linalg.det], called by [prune_path]. *)
Variable np_det : determinant.

(** [heuristic] is the Euclidean norm of the difference of two cells; its
    values are not rational, so it is a parameter here. *)
Variable heuristic : node -> node -> Q.

(** [udacidrone.frame_utils.global_to_local] *)
Variable global_to_local : Q * Q * Q -> Q * Q * Q -> Q * Q * Q.

(** The contents of [colliders.csv]: [lat0], [lon0] of its first line and
    the obstacle rows after the two header lines. *)
Variable colliders : Q * Q * list obstacle.

Definition TARGET_ALTITUDE : Z := 5.
Definition SAFETY_DISTANCE : Z := 5.

(** The start and goal cells computed by [plan_path] on the grid. *)
Definition grid_start (d : MotionPlanning) (north_offset east_offset : Z) : node :=
  let local_pos := global_to_local (global_position d) (global_home d) in
  (int (fst (fst local_pos)) - north_offset, int (snd (fst local_pos)) - east_offset).

Definition grid_goal (d : MotionPlanning) (north_offset east_offset : Z) : node :=
  let global_goal := ((-122396362 # 1000000)%Q, (37795049 # 1000000)%Q, altitude d) in
  let local_goal := global_to_local global_goal (global_home d) in
  (int (fst (fst local_goal)) - north_offset, int (snd (fst local_goal)) - east_offset).

Definition plan_path (d : MotionPlanning) : outcome :=
  let d := set_flight_state PLANNING d in
  match setitem (target_position d) 2 (inject_Z TARGET_ALTITUDE) with
  | None => Raised IndexError d
  | Some t =>
      let d := set_target_position t d in
      let '(lat0, lon0, data) := colliders in
      let d := issue (set_home_position lon0 lat0 0) d in
      match create_grid_on (loadtxt data) (inject_Z TARGET_ALTITUDE)
                           (inject_Z SAFETY_DISTANCE) with
      | Raise e => Raised e d
      | Ok (grid, north_offset, east_offset) =>
          match a_star grid heuristic (grid_start d north_offset east_offset)
                       (grid_goal d north_offset east_offset) with
          | Raise e => Raised e d
          | Ok (path, _) =>
              match prune_path np_det (Some path) with
              | Raise e => Raised e d
              | Ok path =>
                  let waypoints :=
                    map (fun p => [inject_Z (fst p + north_offset);
                                   inject_Z (snd p + east_offset);
                                   inject_Z TARGET_ALTITUDE; 0%Q]) path in
                  let d := set_waypoints waypoints d in
                  Normal (send_waypoints d)
              end
          end
      end
  end.

(** In [WAYPOINT] the difference [target_position[0:2] - local_position[0:2]]
    is taken entry by entry; a target of a single entry is broadcast against
    the two entries of the position, and an empty target cannot be
    broadcast. *)
Definition local_position_callback (d : MotionPlanning) : outcome :=
  match flight_state d with
  | TAKEOFF =>
      match nth_error (target_position d) 2 with
      | None => Raised IndexError d
      | Some t =>
          if Qltb ((95 # 100) * t) (- (1) * snd (local_position d))
          then waypoint_transition d
          else Normal d
      end
  | WAYPOINT =>
      match target_position d with
      | [] => Raised ValueError d
      | tn :: rest =>
          let te := match rest with te :: _ => te | [] => tn end in
          let '(ln, le, _) := local_position d in
          if Qltb (norm2 (tn - ln) (te - le)) 1 then
            if (0 <? Z.of_nat (length (waypoints d)))%Z
            then waypoint_transition d
            else
              let '(vn, ve, _) := local_velocity d in
              if Qltb (norm2 vn ve) 1 then landing_transition d else Normal d
          else Normal d
      end
  | _ => Normal d
  end%Q.

Definition velocity_callback (d : MotionPlanning) : outcome :=
  match flight_state d with
  | LANDING =>
      if Qltb (snd (global_position d) - snd (global_home d)) (1 # 10) then
        if Qltb (Qabs (snd (local_position d))) (1 # 100)
        then disarming_transition d
        else Normal d
      else Normal d
  | _ => Normal d
  end%Q.

(** Python's [~] on a [bool] is the bitwise complement of the integer
    [0] or [1]; [&] is the bitwise and; an integer is true when it is not
    zero. *)
Definition invert (b : bool) : Z := Z.lnot (Z.b2z b).
Definition truth (z : Z) : bool := negb (z =? 0).

Definition state_callback (d : MotionPlanning) : outcome :=
  if in_mission d then
    match flight_state d with
    | MANUAL => arming_transition d
    | ARMING => if armed d then plan_path d else Normal d
    | PLANNING => takeoff_transition d
    | DISARMING =>
        if truth (Z.land (invert (armed d)) (invert (guided d)))
        then manual_transition d
        else Normal d
    | _ => Normal d
    end
  else Normal d.

End Planning.

(** ** Telemetry events *)

(** What the [Drone] base class does on a message: it stores the new
    telemetry and then runs the registered handler, if any. *)
Inductive event : Type :=
  | STATE (armed guided : bool)
  | LOCAL_POSITION (p : Q * Q * Q)
  | LOCAL_VELOCITY (v : Q * Q * Q)
  | GLOBAL_POSITION (p : Q * Q * Q)
  | GLOBAL_HOME (p : Q * Q * Q).

Definition store (ev : event) (d : MotionPlanning) : MotionPlanning :=
  {| target_position := target_position d; waypoints := waypoints d;
     in_mission := in_mission d; flight_state := flight_state d;
     armed := match ev with STATE a _ => a | _ => armed d end;
     guided := match ev with STATE _ g => g | _ => guided d end;
     local_position := match ev with LOCAL_POSITION p => p | _ => local_position d end;
     local_velocity := match ev with LOCAL_VELOCITY v => v | _ => local_velocity d end;
     global_position := match ev with GLOBAL_POSITION p => p | _ => global_position d end;
     global_home := match ev with GLOBAL_HOME p => p | _ => global_home d end;
     altitude := altitude d; issued := issued d |}.

Section Events.

Variable np_det : determinant.
Variable heuristic : node -> node -> Q.
Variable global_to_local : Q * Q * Q -> Q * Q * Q -> Q * Q * Q.
Variable colliders : Q * Q * list obstacle.

Definition receive (ev : event) (d : MotionPlanning) : outcome :=
  let d := store ev d in
  match ev with
  | STATE _ _ => state_callback np_det heuristic global_to_local colliders d
  | LOCAL_POSITION _ => local_position_callback d
  | LOCAL_VELOCITY _ => velocity_callback d
  | _ => Normal d
  end.

(** The handlers run one after the other until one of them raises. *)
Fixpoint run (evs : list event) (d : MotionPlanning) : outcome :=
  match evs with
  | [] => Normal d
  | ev :: rest =>
      match receive ev d with
      | Normal d' => run rest d'
      | Raised e d' => Raised e d'
      end
  end.

(** From [d] on, no sequence of telemetry makes a handler raise. *)
Definition recoverable (d : MotionPlanning) : Prop :=
  forall evs : list event, exists d', run evs d = Normal d'.

End Events.

(** What the handlers rely on once a plan is stored: the target has its
    altitude entry, every waypoint has its four entries, a waypoint is left
    while the first one is still to be popped, and planning is not entered
    again. *)
Definition flying (d : MotionPlanning) : Prop :=
  (3 <= length (target_position d))%nat
  /\ Forall (fun w : list Q => (4 <= length w)%nat) (waypoints d)
  /\ match flight_state d with
     | PLANNING | TAKEOFF => waypoints d <> []
     | MANUAL | ARMING => in_mission d = false
     | _ => True
     end.

(** [MotionPlanning.__init__], with the telemetry the base class holds. *)
Definition init (telemetry : MotionPlanning) : MotionPlanning :=
  {| target_position := [0; 0; 0]%Q; waypoints := [];
     in_mission := true; flight_state := MANUAL;
     armed := armed telemetry; guided := guided telemetry;
     local_position := local_position telemetry;
     local_velocity := local_velocity telemetry;
     global_position := global_position telemetry;
     global_home := global_home telemetry;
     altitude := altitude telemetry; issued := [] |}.

(** ** Inputs used in the examples *)

Definition free_grid (n m : Z) : ndarray := zeros n m.

(** Manhattan distance, an admissible heuristic on a 4-connected grid with
    exact values. *)
Definition manhattan (a b : node) : Q :=
  inject_Z (Z.abs (fst a - fst b) + Z.abs (snd a - snd b)).

(** A single row of three cells whose middle cell is occupied. *)
Definition wall_grid : ndarray :=
  {| shape0 := 1; shape1 := 3; cells := fun _ j => if j =? 1 then 1 else 0 |}.

(** ** Predicates used in the statements about prune_path *)

(** Twice the signed area of the triangle of three cells: the determinant
    of their [point] rows. *)
Definition det3 (p1 p2 p3 : node) : Z :=
  let '(x1, y1) := p1 in
  let '(x2, y2) := p2 in
  let '(x3, y3) := p3 in
  x1 * (y2 - y3) - y1 * (x2 - x3) + (x2 * y3 - x3 * y2).

(** Every window of three consecutive points that starts before position
    [i] turns a corner. *)
Definition corners_before (i : nat) (l : list node) : Prop :=
  forall (k : nat) (p1 p2 p3 : node),
    (k < i)%nat ->
    l !! k = Some p1 -> l !! (k + 1)%nat = Some p2 -> l !! (k + 2)%nat = Some p3 ->
    det3 p1 p2 p3 <> 0.

(** On the points of [l] the routine makes the collinearity test answer as
    exact arithmetic does: three points pass it exactly when their exact
    determinant is zero. *)
Definition exact_on (np_det : determinant) (l : list node) : Prop :=
  forall p q r : node,
    p ∈ l -> q ∈ l -> r ∈ l ->
    collinearity_check np_det (point p) (point q) (point r) = (det3 p q r =? 0).

(** A walk that comes back to its first point and leaves it along a line. *)
Definition revisiting_path : list node := [(0,0); (1,0); (1,1); (0,0); (-1,-1)].

(** A walk that steps back onto the cell it came from. *)
Definition backtracking_path : list node := [(0,0); (1,0); (1,1); (1,0)].

(** An L-shaped walk without repeated cells. *)
Definition corner_path : list node := [(0,0); (1,0); (2,0); (2,1); (2,2)].

(** ** Predicates used in the statements about a_star *)

(** The cell an action leads to. *)
Definition move (n : node) (a : Action) : node :=
  (fst n + fst (delta a), snd n + snd (delta a)).

Definition in_bounds (grid : ndarray) (n : node) : Prop :=
  (0 <= fst n < shape0 grid) /\ (0 <= snd n < shape1 grid).

(** A cell one may move onto: inside the grid and not marked [1]. *)
Definition free (grid : ndarray) (n : node) : Prop :=
  in_bounds grid n /\ cells grid (fst n) (snd n) <> 1.

(** One of the four unit moves, landing on a free cell. *)
Definition step (grid : ndarray) (a b : node) : Prop :=
  exists act : Action, b = move a act /\ free grid b.

(** [goal] is connected to [start] by a sequence of such moves. *)
Definition reachable (grid : ndarray) (start goal : node) : Prop :=
  rtc (step grid) start goal.

(** Two cells differ by exactly one of the four unit moves. *)
Definition unit_move (a b : node) : Prop := exists act : Action, b = move a act.

(** Every consecutive pair of [path] is a unit move. *)
Definition connected (path : list node) : Prop :=
  forall (i : nat) (a b : node),
    path !! i = Some a -> path !! S i = Some b -> unit_move a b.

(** Every consecutive pair of [path], read backwards, is a unit move: the
    shape in which [a_star] collects the path before reversing it. *)
Definition connected_back (path : list node) : Prop :=
  forall (i : nat) (a b : node),
    path !! i = Some a -> path !! S i = Some b -> unit_move b a.

Definition queued (st : frontier) (n : node) : Prop :=
  exists e : entry, e ∈ queue st /\ snd e = n.

Definition seen (start : node) (st : frontier) (n : node) : Prop :=
  n = start \/ inr n ∈ visited st.

(** The cells a node tuple can address, negative indices included. *)
Definition in_box (grid : ndarray) (n : node) : Prop :=
  (- shape0 grid <= fst n < shape0 grid) /\ (- shape1 grid <= snd n < shape1 grid).

Definition box_cells (grid : ndarray) : list node :=
  list_prod (seqZ (- shape0 grid) (2 * shape0 grid))
            (seqZ (- shape1 grid) (2 * shape1 grid)).

(** The addressable cells not yet in [visited], and the number of
    iterations the loop can still take. *)
Definition unvisited (grid : ndarray) (st : frontier) : list node :=
  filter (fun n => inr n ∉ visited st) (box_cells grid).

Definition remaining (grid : ndarray) (st : frontier) : nat :=
  length (queue st) + length (unvisited grid st).

(** The costs the predecessor map records: one more than the cost of the
    predecessor, which is zero for [start]. *)
Definition branch_costs (start : node) (st : frontier) : Prop :=
  forall (n p : node) (c : Z) (a : Action),
    branch st !! n = Some (c, p, a) ->
    1 <= c <= Z.of_nat (size (branch st))
    /\ ((p = start /\ c = 1)
        \/ (p <> start /\ exists cp pp ap, branch st !! p = Some (cp, pp, ap) /\ c = cp + 1)).

(** The moves the predecessor map records. *)
Definition branch_moves (grid : ndarray) (st : frontier) : Prop :=
  forall (n p : node) (c : Z) (a : Action),
    branch st !! n = Some (c, p, a) -> n = move p a /\ free grid n.

(** Each point of [path] is the recorded predecessor of the point before
    it. *)
Definition linked (st : frontier) (path : list node) : Prop :=
  forall (i : nat) (u v : node),
    path !! i = Some u -> path !! S i = Some v ->
    exists c a, branch st !! u = Some (c, v, a).

(** The cost the loop computes for the node it has just taken from the
    queue. *)
Definition cost_of (start : node) (st : frontier) (n : node) (c : Z) : Prop :=
  (n = start /\ c = 0)
  \/ (n <> start /\ exists p a, branch st !! n = Some (c, p, a)).

(** What holds of [visited] and [branch] on every run. *)
Record book_inv (start : node) (st : frontier) : Prop := {
  book_visited : forall n, inr n ∈ visited st <-> is_Some (branch st !! n);
  book_costs : branch_costs start st
}.

(** What holds of the frontier, when [start] lies on the grid, whenever the
    loop condition is evaluated; while the neighbours of [cur] are being
    added, the closure clause is not yet required of [cur]. *)
Record search_inv (grid : ndarray) (start goal : node) (cur : option node)
    (st : frontier) : Prop := {
  inv_bounds : forall n, queued st n -> in_bounds grid n;
  inv_reach : forall n, queued st n -> reachable grid start n;
  inv_known : forall n, queued st n -> n = start \/ is_Some (branch st !! n);
  inv_moves : branch_moves grid st;
  inv_closed : forall n, seen start st n -> ~ queued st n -> cur <> Some n ->
                 forall m, step grid n m -> seen start st m;
  inv_goal : seen start st goal -> queued st goal
}.

(** ** Inputs and reference predicates for the grid builder *)

(** Occupancy as the specification words it: the obstacle is rendered when
    its top, raised by the safety distance, exceeds the operating altitude,
    and it then covers the north range clipped to the grid height and the
    east range [east - d_east - safety_distance - east_min ..
    east + d_east + safety_distance - east_min] clipped to the grid width. *)
Definition spec_covers (north_min east_min north_size east_size : Z)
    (drone_altitude safety_distance : Q) (o : obstacle) (i j : Z) : bool :=
  rendered drone_altitude safety_distance o
  && (int (clip (north o - d_north o - safety_distance - inject_Z north_min) 0
                (inject_Z (north_size - 1))) <=? i)
  && (i <=? int (clip (north o + d_north o + safety_distance - inject_Z north_min) 0
                      (inject_Z (north_size - 1))))
  && (int (clip (east o - d_east o - safety_distance - inject_Z east_min) 0
                (inject_Z (east_size - 1))) <=? j)
  && (j <=? int (clip (east o + d_east o + safety_distance - inject_Z east_min) 0
                      (inject_Z (east_size - 1)))).

Definition spec_occupied (data : list obstacle) (north_min east_min north_size east_size : Z)
    (drone_altitude safety_distance : Q) (i j : Z) : bool :=
  existsb (fun o => spec_covers north_min east_min north_size east_size
                                drone_altitude safety_distance o i j) data.

(** Two tall boxes, four units deep, at the west and east ends of a strip
    twenty units wide. *)
Definition west_box : obstacle :=
  {| north := 2; east := 1; alt := 10; d_north := 2; d_east := 1; d_alt := 10 |}.
Definition east_box : obstacle :=
  {| north := 2; east := 19; alt := 10; d_north := 2; d_east := 1; d_alt := 10 |}.
Definition strip : list obstacle := [west_box; east_box].

(** ** Inputs for the state machine *)

Definition origin : Q * Q * Q := (0, 0, 0)%Q.

(** A vehicle waiting in [DISARMING] whose telemetry reports the given
    [armed] and [guided] flags. *)
Definition disarming_drone (armed guided : bool) : MotionPlanning :=
  {| target_position := [0; 0; 5; 0]%Q; waypoints := [];
     in_mission := true; flight_state := DISARMING;
     armed := armed; guided := guided;
     local_position := origin; local_velocity := origin;
     global_position := origin; global_home := origin;
     altitude := 0%Q; issued := [] |}.

(** A stand-in for the geodetic conversion: the componentwise offset from
    home. *)
Definition offset_from_home (p home : Q * Q * Q) : Q * Q * Q :=
  (fst (fst p) - fst (fst home), snd (fst p) - snd (fst home), snd p - snd home)%Q.

(** A ten by ten yard: one tall box over its whole extent, listed in two
    rows of the table. *)
Definition yard : Q * Q * list obstacle :=
  (37%Q, (-122)%Q,
   [ {| north := 5; east := 5; alt := 10; d_north := 5; d_east := 5; d_alt := 10 |};
     {| north := 5; east := 5; alt := 10; d_north := 5; d_east := 5; d_alt := 10 |} ]).

(** An armed vehicle in [ARMING], standing on cell (1,8) of the yard; the
    goal of [plan_path] then lies far outside the grid. *)
Definition armed_drone : MotionPlanning :=
  {| target_position := [0; 0; 0]%Q; waypoints := [];
     in_mission := true; flight_state := ARMING;
     armed := true; guided := true;
     local_position := origin; local_velocity := origin;
     global_position := (1, 8, 0)%Q; global_home := origin;
     altitude := 0%Q; issued := [arm; take_control] |}.

(** ** Predicates and inputs for the further properties *)

(** Every cell holds [0] or [1]. *)
Definition binary (grid : ndarray) : Prop :=
  forall i j : Z, cells grid i j = 0 \/ cells grid i j = 1.

(** All the points of [l] lie on one line. *)
Definition on_line (l : list node) : Prop :=
  forall p q r : node, p ∈ l -> q ∈ l -> r ∈ l -> det3 p q r = 0.

(** The edges of the flight cycle. *)
Definition successor (s s' : States) : Prop :=
  match s, s' with
  | MANUAL, ARMING | ARMING, PLANNING | PLANNING, TAKEOFF | TAKEOFF, WAYPOINT
  | WAYPOINT, LANDING | LANDING, DISARMING | DISARMING, MANUAL => True
  | _, _ => False
  end.

(** The object a handler leaves behind, however it ends. *)
Definition final (o : outcome) : MotionPlanning :=
  match o with
  | Normal d => d
  | Raised _ d => d
  end.

(** An armed vehicle in [ARMING] on cell (1,8) of the yard, with a home
    from which the goal of [plan_path] falls on cell (2,7). *)
Definition homed_drone : MotionPlanning :=
  {| target_position := [0; 0; 0]%Q; waypoints := [];
     in_mission := true; flight_state := ARMING;
     armed := true; guided := true;
     local_position := origin; local_velocity := origin;
     global_position := (-124, 38, 0)%Q; global_home := (-125, 30, 0)%Q;
     altitude := 0%Q; issued := [arm; take_control] |}.


(** How far along the flight cycle the object is: the position of its
    state in the cycle, and past the whole cycle once [in_mission] is
    cleared. *)
Definition progress (d : MotionPlanning) : Z :=
  (match flight_state d with
   | MANUAL => 0
   | ARMING => 1
   | PLANNING => 2
   | TAKEOFF => 3
   | WAYPOINT => 4
   | LANDING => 5
   | DISARMING => 6
   end) + (if in_mission d then 0 else 7).

(** An armed vehicle in [ARMING] at global position [p], with the home of
    [homed_drone]. *)
Definition drone_at (p : Q * Q * Q) : MotionPlanning :=
  {| target_position := [0; 0; 0]%Q; waypoints := [];
     in_mission := true; flight_state := ARMING;
     armed := true; guided := true;
     local_position := origin; local_velocity := origin;
     global_position := p; global_home := (-125, 30, 0)%Q;
     altitude := 0%Q; issued := [arm; take_control] |}.

(** The object after the mission: back in [MANUAL] with [in_mission]
    cleared. *)
Definition landed_drone : MotionPlanning :=
  {| target_position := [2; 7; 5; 0]%Q; waypoints := [];
     in_mission := false; flight_state := MANUAL;
     armed := false; guided := false;
     local_position := origin; local_velocity := origin;
     global_position := origin; global_home := origin;
     altitude := 0%Q; issued := [stop] |}.


(** The positions requested of the vehicle so far, oldest first. *)
Definition commanded (cs : list command) : list (list Q) :=
  omap (fun c => match c with
                 | cmd_position n e a heading => Some [n; e; a; heading]
                 | _ => None
                 end) cs.

(** A vehicle that has taken off with three waypoints to fly. *)
Definition airborne_drone : MotionPlanning :=
  {| target_position := [0; 0; 5]%Q;
     waypoints := [[1; 8; 5; 0]; [1; 7; 5; 0]; [2; 7; 5; 0]]%Q;
     in_mission := true; flight_state := TAKEOFF;
     armed := true; guided := true;
     local_position := origin; local_velocity := origin;
     global_position := origin; global_home := origin;
     altitude := 0%Q; issued := [arm; take_control; takeoff 5] |}.

(* ===================================================================== *)
(** * Properties *)

Lemma node_eqb_spec (a b : node) : reflect (a = b) (node_eqb a b).
Proof.
  destruct a as [a1 a2], b as [b1 b2]; unfold node_eqb; simpl.
  destruct (Z.eqb_spec a1 b1), (Z.eqb_spec a2 b2); simpl; constructor; congruence.
Qed.

(** ** What create_grid marks *)

Lemma int_clip_range (v : Q) (hi : Z) :
  0 <= hi -> 0 <= int (clip v 0 (inject_Z hi)) <= hi.
Proof.
  intros Hhi. destruct v as [n d].
  unfold clip, Qmin, Qmax, GenericMinMax.gmin, GenericMinMax.gmax, int.
  destruct (Qcompare_spec (n # d) 0) as [H0|H0|H0];
    unfold Qeq, Qlt in H0; simpl in H0.
  - destruct (Qcompare_spec (n # d) (inject_Z hi)) as [H1|H1|H1];
      unfold Qeq, Qlt in H1; simpl in H1 |- *; rewrite ?Z.quot_1_r; try lia.
    all: rewrite Z.quot_div_nonneg by lia.
    all: split; [apply Z.div_pos; lia | apply Z.div_le_upper_bound; lia].
  - destruct (Qcompare_spec 0 (inject_Z hi)) as [H1|H1|H1];
      unfold Qeq, Qlt in H1; simpl in H1 |- *; rewrite ?Z.quot_1_r; lia.
  - destruct (Qcompare_spec (n # d) (inject_Z hi)) as [H1|H1|H1];
      unfold Qeq, Qlt in H1; simpl in H1 |- *; rewrite ?Z.quot_1_r; try lia.
    all: rewrite Z.quot_div_nonneg by lia.
    all: split; [apply Z.div_pos; lia | apply Z.div_le_upper_bound; lia].
Qed.

Lemma in_slice_range (len a b i : Z) :
  0 <= i < len -> 0 <= a -> 0 <= b ->
  in_slice len a (b + 1) i = true <-> a <= i <= b.
Proof.
  intros Hi Ha Hb. unfold in_slice, slice_index.
  destruct (Z.ltb_spec a 0), (Z.ltb_spec (b + 1) 0); lia.
Qed.

Lemma render_shape (nm em ns : Z) (da sd : Q) (g : ndarray) (o : obstacle) :
  shape0 (render nm em ns da sd g o) = shape0 g
  /\ shape1 (render nm em ns da sd g o) = shape1 g.
Proof.
  unfold render. destruct (rendered da sd o); [|done].
  by destruct (footprint nm em ns sd o) as [[[o0 o1] o2] o3].
Qed.

(** After the loop a cell holds [1] exactly if it did before or lies in
    the cell range of a rendered row. *)
Lemma render_all_cells (nm em ns : Z) (da sd : Q) (data : list obstacle) :
  forall (g : ndarray) (i j : Z),
    let g' := fold_left (render nm em ns da sd) data g in
    shape0 g' = shape0 g /\ shape1 g' = shape1 g
    /\ (cells g' i j = 1
        <-> cells g i j = 1
            \/ exists o, o ∈ data /\ rendered da sd o = true
                 /\ let '(o0, o1, o2, o3) := footprint nm em ns sd o in
                    in_slice (shape0 g) o0 (o1 + 1) i = true
                    /\ in_slice (shape1 g) o2 (o3 + 1) j = true).
Proof.
  induction data as [|o data IH]; intros g i j; simpl.
  - split; [done|]. split; [done|]. split; [by left|].
    intros [?|(o & Ho & _)]; [done | by apply elem_of_nil in Ho].
  - destruct (IH (render nm em ns da sd g o) i j) as (H0 & H1 & Hc).
    destruct (render_shape nm em ns da sd g o) as [Hs0 Hs1].
    rewrite H0, H1, Hs0, Hs1. split; [done|]. split; [done|].
    rewrite Hc, Hs0, Hs1. clear Hc IH.
    assert (Hr : cells (render nm em ns da sd g o) i j = 1
                 <-> cells g i j = 1
                     \/ (rendered da sd o = true
                         /\ let '(o0, o1, o2, o3) := footprint nm em ns sd o in
                            in_slice (shape0 g) o0 (o1 + 1) i = true
                            /\ in_slice (shape1 g) o2 (o3 + 1) j = true)).
    { unfold render. destruct (rendered da sd o); [|intuition discriminate].
      destruct (footprint nm em ns sd o) as [[[o0 o1] o2] o3]. simpl.
      destruct (in_slice (shape0 g) o0 (o1 + 1) i), (in_slice (shape1 g) o2 (o3 + 1) j);
        simpl; intuition discriminate. }
    rewrite Hr. split.
    + intros [[?|?]|(o' & Ho' & ?)]; [by left | right; exists o | right; exists o'];
        (split; [|done]); [by left | by right].
    + intros [?|(o' & [->|Ho']%elem_of_cons & ?)]; [by left; left | by left; right |].
      right. by exists o'.
Qed.

(** The cells [create_grid] marks: those in the north range
    [footprint.0 .. footprint.1] and the east range
    [footprint.2 .. footprint.3] of some rendered obstacle. *)
Lemma create_grid_occupied (data : list obstacle) (da sd : Q)
    (grid : ndarray) (north_min east_min : Z) (i j : Z) :
  create_grid data da sd = Ok (grid, north_min, east_min) ->
  0 <= i < shape0 grid -> 0 <= j < shape1 grid ->
  cells grid i j = 1
  <-> exists o, o ∈ data /\ rendered da sd o = true
        /\ let '(o0, o1, o2, o3) :=
             footprint north_min east_min (shape0 grid) sd o in
           o0 <= i <= o1 /\ o2 <= j <= o3.
Proof.
  unfold create_grid. destruct data as [|o os]; [done|].
  set (nm := Qfloor _). set (nM := Qceiling _). set (em := Qfloor _). set (eM := Qceiling _).
  destruct ((nM - nm <? 0) || (eM - em <? 0)); [done|].
  intros [= <- <- <-] Hi Hj.
  destruct (render_all_cells nm em (nM - nm) da sd (o :: os) (zeros (nM - nm) (eM - em)) i j)
    as (H0 & H1 & Hc).
  simpl in H0, H1, Hc. rewrite H0 in Hi |- *. rewrite H1 in Hj. rewrite Hc. clear H0 H1 Hc.
  split.
  - intros [?|(o' & Ho' & Hr & Hf)]; [done|]. exists o'. split; [done|]. split; [done|].
    unfold footprint in *.
    rewrite !in_slice_range in Hf by (try done; apply int_clip_range; lia). done.
  - intros (o' & Ho' & Hr & Hf). right. exists o'. split; [done|]. split; [done|].
    unfold footprint in *.
    rewrite !in_slice_range by (try done; apply int_clip_range; lia). done.
Qed.

(** ** create_grid on the strip *)

(** C1 (the code departs from it): on [strip] at altitude 5 with no safety
    distance the grid is 4 by 20.  Cell (0,3) is marked although neither
    box reaches it, and cell (0,18), which the east box covers, is left
    unmarked: the east bounds are clipped to the north size, and the upper
    east bound is taken from the western face of the obstacle. *)
Theorem create_grid_east_range :
  exists grid,
    create_grid strip 5 0 = Ok (grid, 0, 0)
    /\ shape0 grid = 4 /\ shape1 grid = 20
    /\ cells grid 0 3 = 1 /\ spec_occupied strip 0 0 4 20 5 0 0 3 = false
    /\ cells grid 0 18 = 0 /\ spec_occupied strip 0 0 4 20 5 0 0 18 = true.
Proof. eexists. split; [reflexivity|]. vm_compute. done. Qed.

(** ** valid_actions on a cell of the grid *)

Lemma getitem_in_bounds (grid : ndarray) (x y : Z) :
  in_bounds grid (x, y) -> getitem grid x y = Ok (cells grid x y).
Proof.
  intros [Hx Hy]; simpl in Hx, Hy. unfold getitem, norm_index.
  destruct (Z.leb_spec 0 x), (Z.ltb_spec x (shape0 grid)); try lia.
  destruct (Z.leb_spec 0 y), (Z.ltb_spec y (shape1 grid)); try lia. done.
Qed.

Lemma blocked_spec (off : bool) (grid : ndarray) (x y : Z) :
  (off = false -> in_bounds grid (x, y)) ->
  blocked off grid x y = Ok (off || (cells grid x y =? 1)).
Proof.
  intros H. unfold blocked. destruct off; [done|].
  by rewrite getitem_in_bounds by auto.
Qed.

Lemma blocked_free (off : bool) (grid : ndarray) (x y : Z) :
  (off = false <-> in_bounds grid (x, y)) ->
  off || (cells grid x y =? 1) = false <-> free grid (x, y).
Proof.
  intros H. unfold free. simpl. rewrite orb_false_iff, Z.eqb_neq. tauto.
Qed.

Lemma valid_actions_spec (grid : ndarray) (n : node) :
  in_bounds grid n ->
  exists acts, valid_actions grid n = Ok acts
               /\ forall a, a ∈ acts <-> free grid (move n a).
Proof.
  destruct n as [x y]. intros [Hx Hy]; simpl in Hx, Hy.
  assert (HN : (x - 1 <? 0) = false <-> in_bounds grid (x - 1, y))
    by (unfold in_bounds; simpl; rewrite Z.ltb_ge; lia).
  assert (HS : (x + 1 >? shape0 grid - 1) = false <-> in_bounds grid (x + 1, y))
    by (unfold in_bounds; simpl; rewrite Z.gtb_ltb, Z.ltb_ge; lia).
  assert (HW : (y - 1 <? 0) = false <-> in_bounds grid (x, y - 1))
    by (unfold in_bounds; simpl; rewrite Z.ltb_ge; lia).
  assert (HE : (y + 1 >? shape1 grid - 1) = false <-> in_bounds grid (x, y + 1))
    by (unfold in_bounds; simpl; rewrite Z.gtb_ltb, Z.ltb_ge; lia).
  unfold valid_actions.
  rewrite (blocked_spec _ grid (x - 1) y) by apply HN.
  rewrite (blocked_spec _ grid (x + 1) y) by apply HS.
  rewrite (blocked_spec _ grid x (y - 1)) by apply HW.
  rewrite (blocked_spec _ grid x (y + 1)) by apply HE.
  apply blocked_free in HN, HS, HW, HE.
  eexists. split; [reflexivity|].
  intros a. unfold move.
  replace (x + -1) with (x - 1) in * by lia.
  destruct a; simpl;
    rewrite ?Z.add_0_r, <- ?Z.sub_1_r, ?Z.add_opp_r;
    [rewrite <- HW | rewrite <- HE | rewrite <- HN | rewrite <- HS];
    destruct ((x - 1 <? 0) || (cells grid (x - 1) y =? 1)),
             ((x + 1 >? shape0 grid - 1) || (cells grid (x + 1) y =? 1)),
             ((y - 1 <? 0) || (cells grid x (y - 1) =? 1)),
             ((y + 1 >? shape1 grid - 1) || (cells grid x (y + 1) =? 1));
    simpl; rewrite ?elem_of_cons, ?elem_of_nil; intuition discriminate.
Qed.

Lemma norm_index_Some (len i k : Z) : norm_index len i = Some k -> - len <= i < len.
Proof.
  unfold norm_index.
  destruct (Z.leb_spec 0 i), (Z.ltb_spec i len); simpl; try (intros _; lia).
  all: destruct (Z.leb_spec (- len) i), (Z.ltb_spec i 0); simpl; try done; intros _; lia.
Qed.

Lemma blocked_Ok (off : bool) (grid : ndarray) (x y : Z) (b : bool) :
  blocked off grid x y = Ok b -> b = false -> in_box grid (x, y).
Proof.
  unfold blocked. destruct off; [by intros [= <-]|].
  unfold getitem.
  destruct (norm_index (shape0 grid) x) as [i|] eqn:Hi; [|done].
  destruct (norm_index (shape1 grid) y) as [k|] eqn:Hk; [|done].
  intros _ _. split; simpl; by eapply norm_index_Some.
Qed.

(** Whatever the node, an action that survives leads to an addressable
    cell. *)
Lemma valid_actions_box (grid : ndarray) (n : node) (acts : list Action) (a : Action) :
  valid_actions grid n = Ok acts -> a ∈ acts -> in_box grid (move n a).
Proof.
  destruct n as [x y]. unfold valid_actions.
  destruct (blocked (x - 1 <? 0) grid (x - 1) y) as [bN|] eqn:EN; [|done].
  destruct (blocked (x + 1 >? shape0 grid - 1) grid (x + 1) y) as [bS|] eqn:ES; [|done].
  destruct (blocked (y - 1 <? 0) grid x (y - 1)) as [bW|] eqn:EW; [|done].
  destruct (blocked (y + 1 >? shape1 grid - 1) grid x (y + 1)) as [bE|] eqn:EE; [|done].
  simpl. intros [= <-] Ha.
  pose proof (blocked_Ok _ _ _ _ _ EN) as HN. pose proof (blocked_Ok _ _ _ _ _ ES) as HS.
  pose proof (blocked_Ok _ _ _ _ _ EW) as HW. pose proof (blocked_Ok _ _ _ _ _ EE) as HE.
  clear EN ES EW EE. unfold in_box, move in *. simpl in *.
  destruct bN, bS, bW, bE; simpl in Ha; rewrite ?elem_of_cons, ?elem_of_nil in Ha;
    destruct a; simpl; try (exfalso; intuition discriminate);
    repeat match goal with H : false = false -> _ |- _ => specialize (H eq_refl) end; lia.
Qed.

Lemma blocked_Raise (off : bool) (grid : ndarray) (x y : Z) (e : exn) :
  blocked off grid x y = Raise e -> e = IndexError.
Proof.
  unfold blocked, getitem. destruct off; [done|].
  destruct (norm_index (shape0 grid) x), (norm_index (shape1 grid) y); simpl; congruence.
Qed.

(** The only exception [valid_actions] raises is the index error of a
    read outside the grid. *)
Lemma valid_actions_Raise (grid : ndarray) (n : node) (e : exn) :
  valid_actions grid n = Raise e -> e = IndexError.
Proof.
  destruct n as [x y]. unfold valid_actions.
  destruct (blocked (x - 1 <? 0) grid (x - 1) y) eqn:EN;
    [|intros [= <-]; by eapply blocked_Raise].
  destruct (blocked (x + 1 >? shape0 grid - 1) grid (x + 1) y) eqn:ES;
    [|intros [= <-]; by eapply blocked_Raise].
  destruct (blocked (y - 1 <? 0) grid x (y - 1)) eqn:EW;
    [|intros [= <-]; by eapply blocked_Raise].
  destruct (blocked (y + 1 >? shape1 grid - 1) grid x (y + 1)) eqn:EE;
    [|intros [= <-]; by eapply blocked_Raise].
  done.
Qed.

(** ** The frontier *)

Lemma get_None (q : list entry) : get q = None -> q = [].
Proof.
  destruct q as [|e t]; [done|]. simpl.
  destruct (get t) as [[m t']|]; [|done]. by destruct (entry_ltb m e).
Qed.

Lemma get_Permutation (q : list entry) :
  forall e rest, get q = Some (e, rest) -> q ≡ₚ e :: rest.
Proof.
  induction q as [|x t IH]; intros e rest; simpl; [done|].
  destruct (get t) as [[m t']|] eqn:Ht.
  - destruct (entry_ltb m x); intros [= <- <-]; [|done].
    rewrite (IH m t' eq_refl). apply Permutation_swap.
  - intros [= <- <-]. by rewrite (get_None t Ht).
Qed.

Lemma node_ltb_lt (a b : node) :
  node_ltb a b = true <-> fst a < fst b \/ (fst a = fst b /\ snd a < snd b).
Proof. unfold node_ltb. lia. Qed.

Lemma entry_ltb_lt (a b : entry) :
  entry_ltb a b = true
  <-> (fst a < fst b)%Q \/ ((fst a == fst b)%Q /\ node_ltb (snd a) (snd b) = true).
Proof.
  unfold entry_ltb. destruct (Qcompare_spec (fst a) (fst b)) as [H|H|H]; split.
  - by right.
  - intros [Hlt|[_ Hn]]; [|done]. rewrite H in Hlt. by apply Qlt_irrefl in Hlt.
  - by left.
  - done.
  - done.
  - intros [Hlt|[Heq _]]; exfalso.
    + eapply Qlt_irrefl, Qlt_trans; eauto.
    + rewrite Heq in H. by apply Qlt_irrefl in H.
Qed.

(** [a < b] and [b <= c] give [a < c] for Python's order on entries. *)
Lemma entry_ltb_le_trans (a b c : entry) :
  entry_ltb a b = true -> entry_ltb c b = false -> entry_ltb a c = true.
Proof.
  intros H1 H2. apply not_true_iff_false in H2.
  rewrite entry_ltb_lt in H1, H2. apply entry_ltb_lt.
  destruct (Q_dec (fst c) (fst b)) as [[Hlt|Hgt]|Heq].
  - exfalso. apply H2. by left.
  - left. destruct H1 as [H1|[H1 _]]; [by eapply Qlt_trans | by rewrite H1].
  - destruct H1 as [H1|[H1 Hn]]; [left; by rewrite Heq|].
    right. split; [by rewrite H1, Heq|].
    apply node_ltb_lt. apply node_ltb_lt in Hn.
    assert (Hc : ~ node_ltb (snd c) (snd b) = true) by (intros Hc; apply H2; by right).
    rewrite node_ltb_lt in Hc. lia.
Qed.

Lemma entry_ltb_asym (a b : entry) : entry_ltb a b = true -> entry_ltb b a = false.
Proof.
  intros H. apply not_true_iff_false. intros H'.
  rewrite entry_ltb_lt in H, H'.
  destruct H as [H|[H Hn]], H' as [H'|[H' Hn']].
  - eapply Qlt_irrefl, Qlt_trans; eauto.
  - rewrite H' in H. by apply Qlt_irrefl in H.
  - rewrite H in H'. by apply Qlt_irrefl in H'.
  - apply node_ltb_lt in Hn, Hn'. lia.
Qed.

Lemma entry_ltb_irrefl (a : entry) : entry_ltb a a = false.
Proof.
  destruct (entry_ltb a a) eqn:E; [|done]. by rewrite (entry_ltb_asym _ _ E) in E.
Qed.

Lemma get_least (q : list entry) :
  forall e rest, get q = Some (e, rest) ->
    forall e', e' ∈ q -> entry_ltb e' e = false.
Proof.
  induction q as [|x t IH]; intros e rest; simpl; [done|].
  destruct (get t) as [[m t']|] eqn:Ht.
  - specialize (IH m t' eq_refl).
    destruct (entry_ltb m x) eqn:Hmx; intros [= <- <-] e' Hin;
      apply elem_of_cons in Hin as [Hx|Hin]; subst.
    + by apply entry_ltb_asym.
    + by apply IH.
    + apply entry_ltb_irrefl.
    + destruct (entry_ltb e' x) eqn:E; [|done].
      pose proof (IH e' Hin) as Hm. by rewrite (entry_ltb_le_trans e' x m E Hmx) in Hm.
  - intros [= <- <-] e' Hin. apply elem_of_cons in Hin as [Hx|Hin]; subst.
    + apply entry_ltb_irrefl.
    + rewrite (get_None t Ht) in Hin. by apply elem_of_nil in Hin.
Qed.

(** C7, as stated, fails: of the two entries with priority 2 the one put
    third, [(0,1)], is retrieved before the one put first, [(1,0)], because
    its cell is the smaller tuple; with the Manhattan heuristic this is the
    frontier of [a_star] after expanding [(1,1)] on a free 3x3 grid, and the
    returned path runs through [(0,1)]. *)
Lemma get_not_insertion_stable :
  get (put (put (put (put [] (2%Q, (1,0))) (4%Q, (1,2))) (2%Q, (0,1))) (4%Q, (2,1)))
  = Some ((2%Q, (0,1)), [(2%Q, (1,0)); (4%Q, (1,2)); (4%Q, (2,1))])
  /\ a_star (free_grid 3 3) manhattan (1,1) (0,0) = Ok ([(1,1); (0,1); (0,0)], 2)
  /\ ~ (forall (q : list entry) (e e' : entry) (rest : list entry) (i j : nat),
          get q = Some (e, rest) -> q !! j = Some e -> q !! i = Some e' ->
          (fst e' == fst e)%Q -> (j <= i)%nat).
Proof.
  split; [by vm_compute|]. split; [by vm_compute|].
  intros H.
  specialize (H [(2%Q, (1,0)); (4%Q, (1,2)); (2%Q, (0,1)); (4%Q, (2,1))]
                (2%Q, (0,1)) (2%Q, (1,0)) [(2%Q, (1,0)); (4%Q, (1,2)); (4%Q, (2,1))]
                0%nat 2%nat eq_refl eq_refl eq_refl ltac:(reflexivity)).
  lia.
Qed.

(** C7 (amended): [get] retrieves an entry that no other entry of the
    frontier precedes in the order of [(priority, cell)] tuples; among
    entries of equal priority it is the one whose cell is least in the
    lexicographic order of its coordinates, whenever it was put. *)
Theorem get_lowest_entry (q : list entry) (e : entry) (rest : list entry) :
  get q = Some (e, rest) ->
  q ≡ₚ e :: rest
  /\ forall e', e' ∈ q ->
       entry_ltb e' e = false
       /\ ((fst e' == fst e)%Q -> node_ltb (snd e') (snd e) = false).
Proof.
  intros H. split; [by apply get_Permutation|].
  intros e' Hin. pose proof (get_least q e rest H e' Hin) as Hle.
  split; [done|]. intros Heq.
  destruct (node_ltb (snd e') (snd e)) eqn:E; [|done].
  assert (Hlt : entry_ltb e' e = true) by (apply entry_ltb_lt; by right).
  congruence.
Qed.

(** Two entries of priority 2 put in the order [(1,0)], [(0,1)]: the
    second is retrieved. *)
Lemma get_lowest_entry_witness :
  [(2%Q, (1,0)); (2%Q, (0,1))] ≡ₚ [(2%Q, (0,1)); (2%Q, (1,0))]
  /\ forall e', e' ∈ [(2%Q, (1,0)); (2%Q, (0,1))] ->
       entry_ltb e' (2%Q, (0,1)) = false
       /\ ((fst e' == 2)%Q -> node_ltb (snd e') (0,1) = false).
Proof.
  apply (get_lowest_entry [(2%Q, (1,0)); (2%Q, (0,1))] (2%Q, (0,1)) [(2%Q, (1,0))]).
  reflexivity.
Defined.

(** ** The search loop *)

Lemma elem_of_box_cells (grid : ndarray) (n : node) :
  n ∈ box_cells grid <-> in_box grid n.
Proof.
  destruct n as [x y]. unfold box_cells, in_box.
  rewrite list_elem_of_In, in_prod_iff, <- !list_elem_of_In, !elem_of_seqZ.
  simpl. lia.
Qed.

Lemma in_bounds_box (grid : ndarray) (n : node) : in_bounds grid n -> in_box grid n.
Proof. unfold in_bounds, in_box. lia. Qed.

Lemma length_box_cells (grid : ndarray) :
  (length (box_cells grid) <= Z.to_nat (4 * shape0 grid * shape1 grid))%nat.
Proof.
  unfold box_cells. rewrite length_prod, !length_seqZ.
  destruct (Z.le_gt_cases (shape0 grid) 0) as [H0|H0].
  { replace (Z.to_nat (2 * shape0 grid)) with 0%nat by lia. simpl. lia. }
  destruct (Z.le_gt_cases (shape1 grid) 0) as [H1|H1].
  { replace (Z.to_nat (2 * shape1 grid)) with 0%nat by lia. lia. }
  rewrite <- Z2Nat.inj_mul by lia. apply Z2Nat.inj_le; nia.
Qed.

Lemma filter_shrink (P Q : node -> Prop) `{!forall x, Decision (P x)}
    `{!forall x, Decision (Q x)} (l : list node) (x : node) :
  (forall y, Q y -> P y) -> x ∈ l -> P x -> ~ Q x ->
  (length (filter Q l) < length (filter P l))%nat.
Proof.
  intros HQP. induction l as [|y t IH]; intros Hin HP HQ; [by apply elem_of_nil in Hin|].
  rewrite !filter_cons. apply elem_of_cons in Hin as [<-|Hin].
  - destruct (decide (P x)), (decide (Q x)); try done. simpl.
    assert (length (filter Q t) <= length (filter P t))%nat; [|lia].
    clear -HQP. induction t as [|z t IH]; [done|]. rewrite !filter_cons.
    destruct (decide (P z)), (decide (Q z)); simpl; try lia. exfalso; auto.
  - specialize (IH Hin HP HQ).
    destruct (decide (P y)), (decide (Q y)); simpl; try lia. exfalso; auto.
Qed.

Section Search.

Variable grid : ndarray.
Variable h : node -> node -> Q.
Variables start goal : node.

Lemma expand_old (cur : node) (cc : Z) (st : frontier) (a : Action) :
  inr (move cur a) ∈ visited st -> expand h goal cur cc st a = st.
Proof. intros H. unfold expand. fold (move cur a). by rewrite bool_decide_eq_true_2. Qed.

Lemma expand_new (cur : node) (cc : Z) (st : frontier) (a : Action) :
  inr (move cur a) ∉ visited st ->
  expand h goal cur cc st a
  = {| queue := put (queue st) ((inject_Z (cc + cost a) + h (move cur a) goal)%Q, move cur a);
       visited := visited st ∪ {[ inr (move cur a) ]};
       branch := <[ move cur a := (cc + cost a, cur, a) ]> (branch st) |}.
Proof. intros H. unfold expand. fold (move cur a). by rewrite bool_decide_eq_false_2. Qed.

Lemma cost_one (a : Action) : cost a = 1.
Proof. by destruct a. Qed.

Lemma cost_of_bound (st : frontier) (n : node) (c : Z) :
  branch_costs start st -> cost_of start st n c ->
  0 <= c <= Z.of_nat (size (branch st)).
Proof.
  intros Hb [[_ ->]|[_ (p & a & Hn)]]; [lia|].
  destruct (Hb _ _ _ _ Hn) as (? & _). lia.
Qed.

Lemma expand_visited (cur : node) (cc : Z) (st : frontier) (a : Action) :
  visited st ⊆ visited (expand h goal cur cc st a)
  /\ inr (move cur a) ∈ visited (expand h goal cur cc st a).
Proof.
  destruct (decide (inr (move cur a) ∈ visited st)) as [Hin|Hnew].
  - by rewrite expand_old.
  - rewrite expand_new by done. simpl. split; [apply union_subseteq_l|].
    apply elem_of_union. right. by apply elem_of_singleton.
Qed.

(** *** On every run: the books are kept and the loop runs down *)

Lemma expand_book (cur : node) (cc : Z) (st : frontier) (a : Action) :
  book_inv start st ->
  cost_of start st cur cc ->
  in_box grid (move cur a) ->
  let st' := expand h goal cur cc st a in
  book_inv start st' /\ cost_of start st' cur cc
  /\ (remaining grid st' <= remaining grid st)%nat.
Proof.
  intros [Hvis Hbr] Hcost Hbox st'. subst st'.
  destruct (decide (inr (move cur a) ∈ visited st)) as [Hin|Hnew].
  { rewrite expand_old by done. done. }
  rewrite expand_new by done. set (next := move cur a) in *.
  assert (Hnone : branch st !! next = None).
  { apply eq_None_not_Some. by rewrite <- Hvis. }
  pose proof (cost_of_bound st cur cc Hbr Hcost) as Hcc.
  split; [constructor|split]; simpl.
  - intros n. rewrite elem_of_union, elem_of_singleton, lookup_insert_is_Some, Hvis.
    split; [intros [?|[= ->]]; [destruct (decide (next = n)); auto | auto]
           | intros [->|[_ ?]]; auto].
  - unfold branch_costs. simpl. intros n p c a0 Hn. rewrite cost_one in Hn.
    rewrite map_size_insert_None by done.
    destruct (decide (next = n)) as [<-|Hne].
    + rewrite lookup_insert_eq in Hn. injection Hn as <- <- <-.
      split; [lia|].
      destruct Hcost as [[-> ->]|[Hcs (p & a1 & Hcur)]]; [by left | right].
      split; [done|]. exists cc, p, a1. split; [|done].
      rewrite lookup_insert_ne; [done|]. intros ->. congruence.
    + rewrite lookup_insert_ne in Hn by done.
      destruct (Hbr _ _ _ _ Hn) as (Hc & Hp).
      split; [lia|].
      destruct Hp as [?|[Hps (cp & pp & ap & Hpl & ->)]]; [by left | right].
      split; [done|]. exists cp, pp, ap. split; [|done].
      rewrite lookup_insert_ne; [done|]. intros ->. congruence.
  - destruct Hcost as [?|[Hcs (p & a1 & Hcur)]]; [by left | right].
    split; [done|]. exists p, a1. simpl.
    rewrite lookup_insert_ne; [done|]. intros ->. congruence.
  - unfold remaining, put, unvisited. simpl. rewrite length_app. simpl.
    assert (length (filter (fun n => inr n ∉ visited st ∪ {[ inr next ]}) (box_cells grid))
            < length (filter (fun n => inr n ∉ visited st) (box_cells grid)))%nat; [|lia].
    apply (filter_shrink _ _ _ next).
    + intros y Hy Hy'. apply Hy. apply elem_of_union. by left.
    + by apply elem_of_box_cells.
    + done.
    + intros Hy. apply Hy. apply elem_of_union. right. by apply elem_of_singleton.
Qed.

Lemma expand_all_book (cur : node) (cc : Z) (acts : list Action) :
  forall st : frontier,
    book_inv start st ->
    cost_of start st cur cc ->
    (forall a, a ∈ acts -> in_box grid (move cur a)) ->
    let st' := fold_left (expand h goal cur cc) acts st in
    book_inv start st' /\ cost_of start st' cur cc
    /\ (remaining grid st' <= remaining grid st)%nat.
Proof.
  induction acts as [|a acts IH]; intros st Hbook Hcost Hbox; simpl; [done|].
  destruct (expand_book cur cc st a Hbook Hcost) as (Hbook1 & Hcost1 & Hm1).
  { apply Hbox. by left. }
  destruct (IH _ Hbook1 Hcost1) as (Hbook2 & Hcost2 & Hm2).
  { intros b Hb. apply Hbox. by right. }
  split; [done|]. split; [done | lia].
Qed.

(** The loop never uses up the iterations counted by [remaining], and it
    keeps the books. *)
Lemma search_total (fuel : nat) :
  forall st : frontier,
    book_inv start st ->
    (remaining grid st <= fuel)%nat ->
    match search fuel grid h start goal st with
    | Ok (_, st') => book_inv start st'
    | Raise e => e <> OutOfFuel
    end.
Proof.
  induction fuel as [|f IH]; intros st Hbook Hfuel; unfold remaining in Hfuel.
  - destruct (queue st) as [|e t] eqn:Hq; [|simpl in Hfuel; lia].
    unfold search. by rewrite Hq.
  - simpl. destruct (get (queue st)) as [[item rest]|] eqn:Hget; [|done].
    pose proof (get_Permutation _ _ _ Hget) as Hperm.
    apply Permutation_length in Hperm. simpl in Hperm.
    assert (Hbook1 : book_inv start {| queue := rest; visited := visited st;
                                       branch := branch st |})
      by (destruct Hbook; by constructor).
    destruct (node_eqb_spec (snd item) start) as [Hs|Hs]; simpl.
    + destruct (node_eqb (snd item) goal); [done|].
      destruct (valid_actions grid (snd item)) as [acts|e] eqn:Hacts; simpl;
        [|by rewrite (valid_actions_Raise _ _ _ Hacts)].
      destruct (expand_all_book (snd item) 0 acts
                  {| queue := rest; visited := visited st; branch := branch st |})
        as (Hbook2 & _ & Hm);
        [done | by left | intros b Hin; by eapply valid_actions_box |].
      apply IH; [done|]. unfold remaining, unvisited in *. simpl in *. lia.
    + destruct (branch st !! snd item) as [[[c p] a]|] eqn:Hb; simpl; [|done].
      destruct (node_eqb (snd item) goal); [done|].
      destruct (valid_actions grid (snd item)) as [acts|e] eqn:Hacts; simpl;
        [|by rewrite (valid_actions_Raise _ _ _ Hacts)].
      destruct (expand_all_book (snd item) c acts
                  {| queue := rest; visited := visited st; branch := branch st |})
        as (Hbook2 & _ & Hm);
        [done | right; eauto | intros b Hin; by eapply valid_actions_box |].
      apply IH; [done|]. unfold remaining, unvisited in *. simpl in *. lia.
Qed.

(** *** With [start] on the grid: what is found is what can be reached *)

(** Adding one neighbour of the node being expanded. *)
Lemma expand_inv (cur : node) (cc : Z) (st : frontier) (a : Action) :
  book_inv start st ->
  search_inv grid start goal (Some cur) st ->
  reachable grid start cur ->
  free grid (move cur a) ->
  search_inv grid start goal (Some cur) (expand h goal cur cc st a).
Proof.
  intros [Hvis _] Hinv Hreach Hfree.
  destruct (decide (inr (move cur a) ∈ visited st)) as [Hin|Hnew].
  { by rewrite expand_old. }
  rewrite expand_new by done. set (next := move cur a) in *.
  destruct Hinv as [Hbounds Hreachq Hknown Hmoves Hclosed Hgoal].
  assert (Hnone : branch st !! next = None).
  { apply eq_None_not_Some. by rewrite <- Hvis. }
  assert (Hq : forall n, queued {| queue := put (queue st) ((inject_Z (cc + cost a) + h next goal)%Q, next);
                                  visited := visited st ∪ {[ inr next ]};
                                  branch := <[ next := (cc + cost a, cur, a) ]> (branch st) |} n
                         <-> queued st n \/ n = next).
  { intros n. unfold queued, put. simpl. split.
    - intros (e & [He| ->%list_elem_of_singleton]%elem_of_app & Hn); [left; eauto | by right].
    - intros [(e & He & Hn)| ->].
      + exists e. split; [apply elem_of_app; by left | done].
      + eexists. split; [apply elem_of_app; right; by apply list_elem_of_singleton | done]. }
  assert (Hs : forall n, seen start {| queue := put (queue st) ((inject_Z (cc + cost a) + h next goal)%Q, next);
                                  visited := visited st ∪ {[ inr next ]};
                                  branch := <[ next := (cc + cost a, cur, a) ]> (branch st) |} n
                         <-> seen start st n \/ n = next).
  { intros n. unfold seen. simpl. rewrite elem_of_union, elem_of_singleton.
    split; [intros [?|[?|[= ?]]]; auto | intros [[?|?]| ->]; auto]. }
  constructor; simpl.
  - intros n [?| ->]%Hq; [auto | apply Hfree].
  - intros n [?| ->]%Hq; [auto|].
    eapply rtc_r; [exact Hreach|]. exists a. done.
  - intros n [Hn| ->]%Hq.
    + destruct (Hknown n Hn) as [?|?]; [by left | right].
      rewrite lookup_insert_is_Some. destruct (decide (next = n)); auto.
    + right. rewrite lookup_insert_eq. eauto.
  - unfold branch_moves. simpl. intros n p c a0 Hn.
    destruct (decide (next = n)) as [<-|Hne].
    + rewrite lookup_insert_eq in Hn. by injection Hn as <- <- <-.
    + rewrite lookup_insert_ne in Hn by done. by apply (Hmoves n p c a0).
  - intros n [Hn| ->]%Hs Hnq Hcur m Hstep.
    + apply Hs. left. apply (Hclosed n); auto. intros Hqn. apply Hnq, Hq. by left.
    + exfalso. apply Hnq, Hq. by right.
  - intros [Hg| ->]%Hs; apply Hq; auto.
Qed.

(** Adding all the neighbours of the node being expanded. *)
Lemma expand_all_inv (cur : node) (cc : Z) (acts : list Action) :
  forall st : frontier,
    book_inv start st ->
    cost_of start st cur cc ->
    search_inv grid start goal (Some cur) st ->
    reachable grid start cur ->
    (forall a, a ∈ acts -> free grid (move cur a)) ->
    let st' := fold_left (expand h goal cur cc) acts st in
    search_inv grid start goal (Some cur) st'
    /\ visited st ⊆ visited st'
    /\ (forall a, a ∈ acts -> inr (move cur a) ∈ visited st').
Proof.
  induction acts as [|a acts IH]; intros st Hbook Hcost Hinv Hreach Hfree; simpl.
  - split; [done|]. split; [done|]. intros a Ha. by apply elem_of_nil in Ha.
  - assert (Hfa : free grid (move cur a)) by (apply Hfree; by left).
    pose proof (expand_inv cur cc st a Hbook Hinv Hreach Hfa) as Hinv1.
    destruct (expand_book cur cc st a Hbook Hcost) as (Hbook1 & Hcost1 & _).
    { apply in_bounds_box, Hfa. }
    destruct (expand_visited cur cc st a) as [Hsub1 Hin1].
    destruct (IH _ Hbook1 Hcost1 Hinv1 Hreach) as (Hinv2 & Hsub2 & Hin2).
    { intros b Hb. apply Hfree. by right. }
    split; [done|]. split; [by etransitivity|].
    intros b [->|Hb]%elem_of_cons; [by apply Hsub2 | by apply Hin2].
Qed.

(** Taking the lowest entry from the queue. *)
Lemma get_inv (st : frontier) (item : entry) (rest : list entry) :
  search_inv grid start goal None st ->
  get (queue st) = Some (item, rest) ->
  snd item <> goal ->
  search_inv grid start goal (Some (snd item))
             {| queue := rest; visited := visited st; branch := branch st |}.
Proof.
  intros [Hbounds Hreachq Hknown Hmoves Hclosed Hgoal] Hget Hne.
  pose proof (get_Permutation _ _ _ Hget) as Hperm.
  assert (Hq : forall n, queued st n
                         <-> n = snd item
                             \/ queued {| queue := rest; visited := visited st;
                                          branch := branch st |} n).
  { intros n. unfold queued. simpl. setoid_rewrite Hperm.
    setoid_rewrite elem_of_cons. split.
    - intros (e & [->|He] & Hn); [by left | right; eauto].
    - intros [->|(e & He & Hn)]; eauto. }
  constructor; simpl; try done.
  - intros n Hn. apply Hbounds, Hq. by right.
  - intros n Hn. apply Hreachq, Hq. by right.
  - intros n Hn. apply Hknown, Hq. by right.
  - intros n Hs Hnq Hcur m Hstep. apply (Hclosed n); try done.
    intros [->|?]%Hq; [congruence | done].
  - intros Hs. destruct (proj1 (Hq goal) (Hgoal Hs)) as [?|?]; [congruence | done].
Qed.

(** Once every neighbour of the expanded node is in [visited], the
    closure clause holds of it too. *)
Lemma close_inv (cur : node) (st : frontier) :
  search_inv grid start goal (Some cur) st ->
  (forall m, step grid cur m -> seen start st m) ->
  search_inv grid start goal None st.
Proof.
  intros [Hbounds Hreachq Hknown Hmoves Hclosed Hgoal] Hcur.
  constructor; try done.
  intros n Hs Hnq _ m Hstep. destruct (decide (n = cur)) as [->|Hne]; [by apply Hcur|].
  apply (Hclosed n); try done. congruence.
Qed.

(** With an empty queue, what has been seen is all that can be reached,
    and the goal is not among it. *)
Lemma exhausted_unreachable (st : frontier) :
  search_inv grid start goal None st -> queue st = [] -> ~ reachable grid start goal.
Proof.
  intros [Hbounds Hreachq Hknown Hmoves Hclosed Hgoal] Hempty Hreach.
  assert (Hnq : forall n, ~ queued st n).
  { intros n (e & He & _). rewrite Hempty in He. by apply elem_of_nil in He. }
  apply (Hnq goal), Hgoal.
  apply (rtc_ind_r (R := step grid) (seen start st) start); [by left | | exact Hreach].
  intros n m _ Hstep Hn. apply (Hclosed n); done.
Qed.

(** The loop ends within the iterations counted by [remaining]; it
    reports [found] exactly when the goal can be reached, and then the goal
    has an entry in [branch] unless it is the start. *)
Lemma search_correct (fuel : nat) :
  forall st : frontier,
    book_inv start st ->
    search_inv grid start goal None st ->
    (remaining grid st <= fuel)%nat ->
    exists (found : bool) (st' : frontier),
      search fuel grid h start goal st = Ok (found, st')
      /\ branch_moves grid st'
      /\ (if found
          then reachable grid start goal
               /\ (goal = start \/ is_Some (branch st' !! goal))
          else ~ reachable grid start goal).
Proof.
  induction fuel as [|f IH]; intros st Hbook Hinv Hfuel; unfold remaining in Hfuel.
  - destruct (queue st) as [|e t] eqn:Hq; [|simpl in Hfuel; lia].
    exists false, st. unfold search. rewrite Hq. simpl.
    split; [done|]. split; [apply Hinv | by apply (exhausted_unreachable st)].
  - simpl. destruct (get (queue st)) as [[item rest]|] eqn:Hget.
    + pose proof (get_Permutation _ _ _ Hget) as Hperm.
      assert (Hqi : queued st (snd item)).
      { exists item. split; [|done]. rewrite Hperm. by left. }
      assert (Hcost : exists cc,
                 (if node_eqb (snd item) start then Ok 0
                  else match branch st !! snd item with
                       | Some (c, _, _) => Ok c
                       | None => Raise KeyError
                       end) = Ok cc
                 /\ cost_of start st (snd item) cc).
      { destruct (node_eqb_spec (snd item) start) as [Hs|Hs].
        - exists 0. split; [done|]. by left.
        - destruct (inv_known _ _ _ _ _ Hinv _ Hqi) as [?|[[[c p] a] Hb]]; [done|].
          exists c. rewrite Hb. split; [done|]. right. eauto. }
      destruct Hcost as (cc & -> & Hcost). simpl.
      destruct (node_eqb_spec (snd item) goal) as [Hg|Hg].
      * eexists true, _. split; [reflexivity|]. simpl.
        split; [apply Hinv|]. rewrite <- Hg.
        split; [by apply (inv_reach _ _ _ _ _ Hinv) | by apply (inv_known _ _ _ _ _ Hinv)].
      * pose proof (get_inv st item rest Hinv Hget Hg) as Hinv1.
        destruct (valid_actions_spec grid (snd item)) as (acts & Hva & Hacts).
        { by apply (inv_bounds _ _ _ _ _ Hinv). }
        rewrite Hva. simpl.
        assert (Hbook1 : book_inv start {| queue := rest; visited := visited st;
                                           branch := branch st |})
          by (destruct Hbook; by constructor).
        destruct (expand_all_inv (snd item) cc acts _ Hbook1 Hcost Hinv1)
          as (Hinv2 & Hsub & Hin).
        { by apply (inv_reach _ _ _ _ _ Hinv). }
        { intros a Ha. by apply Hacts. }
        destruct (expand_all_book (snd item) cc acts _ Hbook1 Hcost)
          as (Hbook2 & _ & Hm).
        { intros a Ha. by eapply valid_actions_box. }
        apply IH.
        -- done.
        -- apply (close_inv (snd item)); [done|].
           intros m (a & -> & Hfree). right. apply Hin. by apply Hacts.
        -- apply Permutation_length in Hperm. simpl in Hperm.
           unfold remaining, unvisited in *. simpl in *. lia.
    + apply get_None in Hget.
      exists false, st. split; [done|].
      split; [apply Hinv | by apply (exhausted_unreachable st)].
Qed.

End Search.

(** ** Retracing the path and the result of a_star *)

Lemma connected_reverse (path : list node) :
  connected_back path -> connected (reverse path).
Proof.
  intros Hb i a b Ha Hb'.
  apply reverse_lookup_Some in Ha as [Ha Hi], Hb' as [Hb' Hi'].
  apply (Hb (length path - S (S i))%nat); [done|].
  by replace (S (length path - S (S i))) with (length path - S i)%nat by lia.
Qed.

Lemma linked_connected_back (grid : ndarray) (st : frontier) (path : list node) :
  branch_moves grid st -> linked st path -> connected_back path.
Proof.
  intros Hm Hl i u v Hu Hv. destruct (Hl i u v Hu Hv) as (c & a & Hb).
  exists a. by destruct (Hm _ _ _ _ Hb).
Qed.

Lemma linked_cons (st : frontier) (n p : node) (c : Z) (a : Action) (path : list node) :
  branch st !! n = Some (c, p, a) -> linked st (p :: path) -> linked st (n :: p :: path).
Proof.
  intros Hn Hl [|i] u v Hu Hv; simpl in Hu, Hv.
  - simplify_eq. eauto.
  - by apply (Hl i).
Qed.

Section Retrace.

Variable start : node.
Variable st : frontier.
Hypothesis Hcosts : branch_costs start st.

(** From a node whose recorded cost is [k + 1] the walk along the
    predecessors reaches [start] after [k] further lookups. *)
Lemma retrace_correct (k : nat) :
  forall (fuel : nat) (n p : node) (c : Z) (a : Action) (acc : list node),
    branch st !! n = Some (c, p, a) ->
    c = Z.of_nat (S k) ->
    (k <= fuel)%nat ->
    exists path,
      retrace fuel (branch st) start n acc = Ok (acc ++ path)
      /\ length path = S k
      /\ last path = Some start
      /\ linked st (n :: path).
Proof.
  induction k as [|k IH]; intros fuel n p c a acc Hn Hc Hfuel;
    destruct (Hcosts _ _ _ _ Hn) as (_ & Hp).
  - destruct Hp as [[-> _]|[_ (cp & pp & ap & Hpl & ->)]].
    + exists [start]. destruct fuel; simpl; rewrite Hn;
        (destruct (node_eqb_spec start start); [|done]);
        (repeat split; [done..|]);
        intros [|i] u v Hu Hv; simplify_eq/=; eauto.
    + destruct (Hcosts _ _ _ _ Hpl) as (? & _). lia.
  - destruct Hp as [[-> ->]|[Hps (cp & pp & ap & Hpl & ->)]]; [lia|].
    destruct fuel as [|fuel]; [lia|].
    destruct (IH fuel p pp cp ap (acc ++ [p]) Hpl ltac:(lia) ltac:(lia))
      as (path & Hr & Hlen & Hlast & Hlink).
    exists (p :: path). simpl. rewrite Hn.
    destruct (node_eqb_spec p start); [done|].
    rewrite Hr, <- app_assoc. simpl.
    split; [done|]. split; [by rewrite Hlen|].
    split; [destruct path; [done | by rewrite last_cons_cons]|].
    by apply (linked_cons st n p (cp + 1) a).
Qed.

End Retrace.

Lemma initial_book (grid : ndarray) (start : node) :
  book_inv start (initial start)
  /\ (remaining grid (initial start) <= search_fuel grid)%nat.
Proof.
  split; [constructor|]; simpl.
  - intros n. rewrite elem_of_union, !elem_of_singleton, lookup_empty.
    split; [by intros [?|?] | by intros [? ?]].
  - intros n p c a. simpl. by rewrite lookup_empty.
  - unfold remaining, search_fuel, unvisited. simpl.
    pose proof (length_filter (fun n : node => inr n ∉ visited (initial start))
                              (box_cells grid)) as Hf.
    pose proof (length_box_cells grid). simpl in *. lia.
Qed.

Lemma initial_inv (grid : ndarray) (start goal : node) :
  in_bounds grid start -> search_inv grid start goal None (initial start).
Proof.
  intros Hstart.
  assert (Hq : forall n, queued (initial start) n <-> n = start).
  { intros n. unfold queued. simpl. split.
    - by intros (e & ->%list_elem_of_singleton & <-).
    - intros ->. exists (0%Q, start). split; [by apply list_elem_of_singleton | done]. }
  assert (Hv : forall n : node, inr n ∉ visited (initial start)).
  { intros n. simpl. rewrite elem_of_union, !elem_of_singleton. by intros [?|?]. }
  constructor; simpl.
  - by intros n ->%Hq.
  - intros n ->%Hq. apply rtc_refl.
  - intros n ->%Hq. by left.
  - intros n p c a. simpl. by rewrite lookup_empty.
  - intros n [->|?%Hv] Hnq; [|done]. exfalso. by apply Hnq, Hq.
  - intros [->|?%Hv]; [by apply Hq | done].
Qed.

(** Whatever its arguments, [a_star] ends within the iterations granted to
    its two loops. *)
Lemma a_star_total (grid : ndarray) (h : node -> node -> Q) (start goal : node) :
  a_star grid h start goal <> Raise OutOfFuel.
Proof.
  destruct (initial_book grid start) as [Hbook Hfuel].
  pose proof (search_total grid h start goal _ _ Hbook Hfuel) as Hs.
  unfold a_star. fold (initial start).
  destruct (search (search_fuel grid) grid h start goal (initial start))
    as [[found st]|e]; simpl; [|congruence].
  destruct found; [|done].
  destruct (branch st !! goal) as [[[c p] a]|] eqn:Hg; [|done].
  destruct (book_costs _ _ Hs _ _ _ _ Hg) as (Hc & _).
  destruct (retrace_correct start st (book_costs _ _ Hs) (Z.to_nat c - 1)
              (size (branch st)) goal p c a [goal] Hg ltac:(lia) ltac:(lia))
    as (path & -> & _).
  done.
Qed.

(** On a grid that contains [start], what [a_star] returns is decided by
    whether [goal] can be reached. *)
Lemma a_star_cases (grid : ndarray) (h : node -> node -> Q) (start goal : node) :
  in_bounds grid start -> start <> goal ->
  (reachable grid start goal
   /\ exists path c, a_star grid h start goal = Ok (path, c)
        /\ Z.of_nat (length path) - 1 = c
        /\ head path = Some start /\ last path = Some goal
        /\ connected path)
  \/ (~ reachable grid start goal /\ a_star grid h start goal = Ok ([], 0)).
Proof.
  intros Hstart Hne.
  destruct (initial_book grid start) as [Hbook Hfuel].
  pose proof (initial_inv grid start goal Hstart) as Hinv.
  pose proof (search_total grid h start goal _ _ Hbook Hfuel) as Hbook'.
  destruct (search_correct grid h start goal _ _ Hbook Hinv Hfuel)
    as (found & st & Hs & Hmoves & Hres).
  rewrite Hs in Hbook'.
  unfold a_star. fold (initial start). rewrite Hs. simpl.
  destruct found; [left | right; done].
  destruct Hres as [Hreach [?|[[[c p] a] Hg]]]; [congruence|].
  split; [done|]. rewrite Hg.
  destruct (book_costs _ _ Hbook' _ _ _ _ Hg) as (Hc & _).
  destruct (retrace_correct start st (book_costs _ _ Hbook') (Z.to_nat c - 1)
              (size (branch st)) goal p c a [goal] Hg ltac:(lia) ltac:(lia))
    as (path & -> & Hlen & Hlast & Hlink).
  simpl. exists (reverse (goal :: path)), c.
  split; [done|]. rewrite length_reverse. simpl. rewrite Hlen.
  split; [lia|]. rewrite head_reverse, last_reverse. simpl.
  split; [destruct path; [done | by rewrite last_cons_cons]|].
  split; [done|]. apply connected_reverse. by eapply linked_connected_back.
Qed.

(** On [wall_grid] no move leaves the first cell. *)
Lemma wall_unreachable : ~ reachable wall_grid (0,0) (0,2).
Proof.
  intros H.
  assert (Hstay : forall n, rtc (step wall_grid) (0,0) n -> n = (0,0)); [|by apply Hstay in H].
  intros n Hn. apply (rtc_ind_r (R := step wall_grid) (fun n => n = (0,0)) (0,0)); [done| |done].
  intros y z _ (a & -> & [[Hx Hy] Hc]) ->.
  destruct a; vm_compute in Hx, Hy, Hc; intuition congruence.
Qed.

(** C2, as stated, fails: on [wall_grid] the goal cannot be reached and
    what [a_star] hands back is the empty path with cost zero and nothing
    more. *)
Lemma a_star_failure_is_empty_path :
  ~ reachable wall_grid (0,0) (0,2)
  /\ a_star wall_grid manhattan (0,0) (0,2) = Ok ([], 0)
  /\ ~ (forall grid h start goal,
          ~ reachable grid start goal -> a_star grid h start goal <> Ok ([], 0)).
Proof.
  split; [exact wall_unreachable|]. split; [by vm_compute|].
  intros H. apply (H wall_grid manhattan (0,0) (0,2) wall_unreachable). by vm_compute.
Qed.

(** C2 (amended): when [start] lies on the grid and no sequence of unit
    moves onto unoccupied cells leads from it to [goal], [a_star] returns
    the empty path with cost zero; the returned pair is all the caller
    gets. *)
Theorem a_star_unreachable (grid : ndarray) (h : node -> node -> Q) (start goal : node) :
  in_bounds grid start ->
  ~ reachable grid start goal ->
  a_star grid h start goal = Ok ([], 0).
Proof.
  intros Hstart Hunreach.
  assert (Hne : start <> goal) by (intros ->; apply Hunreach, rtc_refl).
  by destruct (a_star_cases grid h start goal Hstart Hne) as [[? _]|[_ ?]].
Qed.

(** Behind the wall the goal is out of reach. *)
Lemma a_star_unreachable_witness : a_star wall_grid manhattan (0,0) (0,2) = Ok ([], 0).
Proof.
  apply a_star_unreachable.
  - unfold in_bounds. simpl. lia.
  - exact wall_unreachable.
Defined.

(** When [goal] differs from [start] and can be reached, the returned
    path starts at [start], ends at [goal], proceeds by unit moves, and has
    as many steps as the reported cost. *)
Lemma a_star_reachable (grid : ndarray) (h : node -> node -> Q) (start goal : node) :
  in_bounds grid start -> start <> goal -> reachable grid start goal ->
  exists path c, a_star grid h start goal = Ok (path, c)
    /\ Z.of_nat (length path) - 1 = c
    /\ head path = Some start /\ last path = Some goal
    /\ connected path.
Proof.
  intros Hstart Hne Hreach.
  by destruct (a_star_cases grid h start goal Hstart Hne) as [[_ ?]|[? _]].
Qed.

(** On the free 10x10 grid the path from one corner to the opposite one
    has 19 cells and cost 18. *)
Example a_star_free_10 :
  exists path, a_star (free_grid 10 10) manhattan (0,0) (9,9) = Ok (path, 18)
               /\ length path = 19%nat.
Proof. eexists. split; [by vm_compute | done]. Qed.

(** C5 (the code departs from it): a goal equal to the start is reachable
    by the empty sequence of moves, yet on the free 3x3 grid [a_star] then
    raises instead of returning the one-cell path with cost zero. *)
Theorem a_star_trivial_goal_raises :
  in_bounds (free_grid 3 3) (1,1)
  /\ reachable (free_grid 3 3) (1,1) (1,1)
  /\ a_star (free_grid 3 3) manhattan (1,1) (1,1) = Raise KeyError.
Proof.
  split; [unfold in_bounds; simpl; lia|]. split; [apply rtc_refl | by vm_compute].
Qed.

(** ** a_star with start equal to goal *)

(** C9: with [start] equal to [goal] the first node taken from the queue
    is the goal, nothing has been recorded in [branch], and the lookup that
    opens the reconstruction raises. *)
Theorem a_star_start_is_goal (grid : ndarray) (h : node -> node -> Q) (start : node) :
  search (search_fuel grid) grid h start start (initial start)
  = Ok (true, {| queue := []; visited := visited (initial start); branch := ∅ |})
  /\ a_star grid h start start = Raise KeyError.
Proof.
  unfold a_star, search_fuel. simpl.
  destruct (node_eqb_spec start start); [|done]. simpl.
  by rewrite lookup_empty.
Qed.

(** ** prune_path *)

Lemma det_point (p1 p2 p3 : node) : det (point p1) (point p2) (point p3) = det3 p1 p2 p3.
Proof. destruct p1, p2, p3. unfold det, point, det3. simpl. ring. Qed.

(** With a routine free of rounding error the tolerance test is the test
    for a zero determinant. *)
Lemma exact_det_exact_on (l : list node) : exact_on exact_det l.
Proof.
  intros p q r _ _ _. unfold collinearity_check, exact_det. rewrite det_point.
  unfold Qltb, epsilon, Qcompare, Qabs, inject_Z, Qnum, Qden.
  destruct (Z.eqb_spec (det3 p q r) 0) as [->|Hne]; [reflexivity|].
  destruct (Z.compare_spec (Z.abs (det3 p q r) * 4722366482869645213696)
                           (4722366482869645 * 1)); try reflexivity; lia.
Qed.

Lemma exact_on_subseteq (np_det : determinant) (l l' : list node) :
  (forall x, x ∈ l' -> x ∈ l) -> exact_on np_det l -> exact_on np_det l'.
Proof. intros Hsub Hex p q r Hp Hq Hr. apply Hex; by apply Hsub. Qed.

Lemma exact_on_sublist (np_det : determinant) (l l' : list node) :
  sublist l' l -> exact_on np_det l -> exact_on np_det l'.
Proof.
  intros Hs. apply exact_on_subseteq. intros x Hx. by eapply elem_of_sublist.
Qed.

(** Where the routine is exact, the tolerance test is the test for a zero
    determinant. *)
Lemma collinearity_check_det (np_det : determinant) (l : list node) (p1 p2 p3 : node) :
  exact_on np_det l -> p1 ∈ l -> p2 ∈ l -> p3 ∈ l ->
  collinearity_check np_det (point p1) (point p2) (point p3) = true <-> det3 p1 p2 p3 = 0.
Proof.
  intros Hex H1 H2 H3. rewrite (Hex p1 p2 p3 H1 H2 H3). apply Z.eqb_eq.
Qed.

Lemma collinearity_check_false (np_det : determinant) (l : list node) (p1 p2 p3 : node) :
  exact_on np_det l -> p1 ∈ l -> p2 ∈ l -> p3 ∈ l ->
  collinearity_check np_det (point p1) (point p2) (point p3) = false <-> det3 p1 p2 p3 <> 0.
Proof.
  intros Hex H1 H2 H3. rewrite (Hex p1 p2 p3 H1 H2 H3). apply Z.eqb_neq.
Qed.

(** A point between two others on a line can be skipped without bending
    the corner before it, provided the walk does not return to the corner. *)
Lemma det3_skip (a b c d : node) :
  det3 a b c <> 0 -> det3 b c d = 0 -> b <> d -> det3 a b d <> 0.
Proof.
  destruct a as [ax ay], b as [bx by_], c as [cx cy], d as [dx dy]; unfold det3.
  intros Habc Hbcd Hbd Habd. apply Habc.
  assert (Hx : (ax * (by_ - cy) - ay * (bx - cx) + (bx * cy - cx * by_)) * (dx - bx) = 0).
  { transitivity ((ax * (by_ - dy) - ay * (bx - dx) + (bx * dy - dx * by_)) * (cx - bx)
                  + (bx * (cy - dy) - by_ * (cx - dx) + (cx * dy - dx * cy)) * (ax - bx));
      [ring | rewrite Habd, Hbcd; ring]. }
  assert (Hy : (ax * (by_ - cy) - ay * (bx - cx) + (bx * cy - cx * by_)) * (dy - by_) = 0).
  { transitivity ((ax * (by_ - dy) - ay * (bx - dx) + (bx * dy - dx * by_)) * (cy - by_)
                  + (bx * (cy - dy) - by_ * (cx - dx) + (cx * dy - dx * cy)) * (ay - by_));
      [ring | rewrite Habd, Hbcd; ring]. }
  apply Z.mul_eq_0 in Hx, Hy.
  destruct Hx as [|Hx]; [assumption|]. destruct Hy as [|Hy]; [assumption|].
  exfalso. apply Hbd. f_equal; lia.
Qed.

Lemma list_remove_length (v : node) (l : list node) :
  v ∈ l -> S (length (list_remove v l)) = length l.
Proof.
  induction l as [|x t IH]; intros Hin; [by apply elem_of_nil in Hin|].
  simpl. destruct (node_eqb_spec x v) as [->|Hne]; [done|].
  apply elem_of_cons in Hin as [->|Hin]; [done|]. simpl. by rewrite IH.
Qed.

Lemma list_remove_sublist (v : node) (l : list node) : sublist (list_remove v l) l.
Proof.
  induction l as [|x t IH]; simpl; [constructor|].
  destruct (node_eqb x v); [by apply sublist_cons | by apply sublist_skip].
Qed.

(** Removing the value found at position [k] never touches what follows
    position [k]. *)
Lemma list_remove_last (v : node) (l : list node) (k : nat) :
  l !! k = Some v -> (S k < length l)%nat -> last (list_remove v l) = last l.
Proof.
  revert k. induction l as [|x t IH]; intros k Hk Hlen; [done|].
  simpl list_remove. destruct (node_eqb_spec x v) as [->|Hne].
  - destruct t; [simpl in Hlen; lia | done].
  - destruct k as [|k]; [simpl in Hk; congruence|].
    simpl in Hk, Hlen. specialize (IH k Hk ltac:(lia)).
    assert (Ht : v ∈ t) by (apply list_elem_of_lookup; eauto).
    pose proof (list_remove_length v t Ht) as Hl.
    destruct t as [|y t']; [simpl in Hlen; lia|].
    destruct (list_remove v (y :: t')) as [|z r] eqn:E.
    + simpl in Hl, Hlen. lia.
    + rewrite !last_cons_cons. exact IH.
Qed.

(** With pairwise distinct points, removing a value is deleting its
    position. *)
Lemma list_remove_delete (v : node) (l : list node) (k : nat) :
  NoDup l -> l !! k = Some v -> list_remove v l = delete k l.
Proof.
  revert k. induction l as [|x t IH]; intros k Hnd Hk; [done|].
  apply NoDup_cons in Hnd as [Hx Hnd]. simpl list_remove.
  destruct k as [|k]; simpl in Hk.
  - injection Hk as ->. by destruct (node_eqb_spec v v).
  - destruct (node_eqb_spec x v) as [->|Hne].
    + exfalso. apply Hx. apply list_elem_of_lookup; eauto.
    + simpl. f_equal. by apply IH.
Qed.

Lemma take_delete_le (l : list node) (n k : nat) :
  (n <= k)%nat -> take n (delete k l) = take n l.
Proof.
  intros Hnk. apply list_eq. intros j. rewrite !lookup_take.
  case_decide; [|done]. apply list_lookup_delete_lt. lia.
Qed.

(** Whatever the routine answers, the loop ends within [fuel]
    iterations. *)
Lemma prune_loop_total (np_det : determinant) (fuel : nat) :
  forall (i : nat) (l : list node),
    (length l <= fuel + i + 2)%nat -> exists l', prune_loop np_det fuel i l = Ok l'.
Proof.
  induction fuel as [|f IH]; intros i l Hlen; simpl;
    destruct (Z.ltb_spec (Z.of_nat i) (Z.of_nat (length l) - 2)) as [Hlt|Hge];
    try lia; eauto.
  destruct (lookup_lt_is_Some_2 l i ltac:(lia)) as [p1 ->].
  destruct (lookup_lt_is_Some_2 l (i + 1) ltac:(lia)) as [p2 H2]. rewrite H2.
  destruct (lookup_lt_is_Some_2 l (i + 2) ltac:(lia)) as [p3 ->].
  destruct (collinearity_check np_det (point p1) (point p2) (point p3)); apply IH; [|lia].
  assert (Hin : p2 ∈ l) by (apply list_elem_of_lookup; eauto).
  pose proof (list_remove_length p2 l Hin). lia.
Qed.

(** The output keeps the order of the input and its last point. *)
Lemma prune_loop_sublist (np_det : determinant) (fuel : nat) :
  forall (i : nat) (l l' : list node),
    prune_loop np_det fuel i l = Ok l' -> sublist l' l /\ last l' = last l.
Proof.
  induction fuel as [|f IH]; intros i l l'; simpl;
    destruct (Z.ltb_spec (Z.of_nat i) (Z.of_nat (length l) - 2)) as [Hlt|Hge];
    intros H; try discriminate; try (injection H as <-; done).
  destruct (l !! i) as [p1|]; [|discriminate].
  destruct (l !! (i + 1)%nat) as [p2|] eqn:H2; [|discriminate].
  destruct (l !! (i + 2)%nat) as [p3|]; [|discriminate].
  destruct (collinearity_check np_det (point p1) (point p2) (point p3));
    apply IH in H as [Hs Hl]; [|done].
  split.
  - etransitivity; [exact Hs | apply list_remove_sublist].
  - rewrite Hl. apply (list_remove_last p2 l (i + 1)); [done | lia].
Qed.

(** On pairwise distinct points the loop never removes a point at or
    before position [i], whatever the routine answers. *)
Lemma prune_loop_prefix (np_det : determinant) (fuel : nat) :
  forall (i : nat) (l l' : list node),
    NoDup l -> prune_loop np_det fuel i l = Ok l' ->
    NoDup l' /\ take (S i) l' = take (S i) l.
Proof.
  induction fuel as [|f IH]; intros i l l' Hnd; simpl;
    destruct (Z.ltb_spec (Z.of_nat i) (Z.of_nat (length l) - 2)) as [Hlt|Hge];
    intros H; try discriminate; try (by injection H as <-).
  destruct (l !! i) as [p1|] eqn:H1; [|discriminate].
  destruct (l !! (i + 1)%nat) as [p2|] eqn:H2; [|discriminate].
  destruct (l !! (i + 2)%nat) as [p3|] eqn:H3; [|discriminate].
  destruct (collinearity_check np_det (point p1) (point p2) (point p3)).
  - rewrite (list_remove_delete p2 l (i + 1) Hnd H2) in H.
    apply IH in H as (Hnd' & Ht).
    + split; [done|]. rewrite Ht. apply take_delete_le. lia.
    + eapply sublist_NoDup; [done | apply sublist_delete].
  - apply IH in H as (Hnd' & Ht); [|done]. split; [done|].
    apply (f_equal (take (S i))) in Ht. rewrite !take_take in Ht.
    by replace (S i `min` S (i + 1))%nat with (S i) in Ht by lia.
Qed.

(** On pairwise distinct points on which the routine is exact, the loop
    leaves only corners behind it. *)
Lemma prune_loop_corners (np_det : determinant) (fuel : nat) :
  forall (i : nat) (l l' : list node),
    NoDup l -> exact_on np_det l -> corners_before i l ->
    prune_loop np_det fuel i l = Ok l' ->
    NoDup l' /\ corners_before (length l') l' /\ take (S i) l' = take (S i) l.
Proof.
  induction fuel as [|f IH]; intros i l l' Hnd Hex Hc; simpl;
    destruct (Z.ltb_spec (Z.of_nat i) (Z.of_nat (length l) - 2)) as [Hlt|Hge];
    intros H; try discriminate;
    try (injection H as <-; split; [done | split; [|done]];
         intros k p1 p2 p3 _ H1 H2 H3; apply (Hc k p1 p2 p3); try done;
         apply lookup_lt_Some in H3; lia).
  - destruct (l !! i) as [p1|] eqn:H1; [|discriminate].
    destruct (l !! (i + 1)%nat) as [p2|] eqn:H2; [|discriminate].
    destruct (l !! (i + 2)%nat) as [p3|] eqn:H3; [|discriminate].
    assert (Hin1 : p1 ∈ l) by (apply list_elem_of_lookup; eauto).
    assert (Hin2 : p2 ∈ l) by (apply list_elem_of_lookup; eauto).
    assert (Hin3 : p3 ∈ l) by (apply list_elem_of_lookup; eauto).
    destruct (collinearity_check np_det (point p1) (point p2) (point p3)) eqn:Hcol.
    + rewrite (list_remove_delete p2 l (i + 1) Hnd H2) in H.
      apply (collinearity_check_det np_det l p1 p2 p3 Hex Hin1 Hin2 Hin3) in Hcol.
      apply IH in H as (Hnd' & Hc' & Ht).
      * split; [done | split; [done|]].
        rewrite Ht. apply take_delete_le. lia.
      * eapply sublist_NoDup; [done | apply sublist_delete].
      * eapply exact_on_sublist; [apply sublist_delete | done].
      * intros k q1 q2 q3 Hk Hq1 Hq2 Hq3.
        rewrite list_lookup_delete_lt in Hq1 by lia.
        destruct (decide (k + 1 = i)%nat) as [Hki|Hki].
        -- rewrite list_lookup_delete_lt in Hq2 by lia.
           rewrite list_lookup_delete_ge in Hq3 by lia.
           replace (S (k + 2)) with (i + 2)%nat in Hq3 by lia.
           replace (k + 1)%nat with i in Hq2 by lia.
           assert (q2 = p1) as -> by congruence. assert (q3 = p3) as -> by congruence.
           apply (det3_skip q1 p1 p2 p3); [|done|].
           ++ apply (Hc k q1 p1 p2); try done; [by rewrite Hki | ].
              by replace (k + 2)%nat with (i + 1)%nat by lia.
           ++ intros ->. pose proof (NoDup_lookup l i (i + 2)%nat p3 Hnd H1 H3). lia.
        -- rewrite list_lookup_delete_lt in Hq2 by lia.
           rewrite list_lookup_delete_lt in Hq3 by lia.
           apply (Hc k q1 q2 q3); done || lia.
    + apply (collinearity_check_false np_det l p1 p2 p3 Hex Hin1 Hin2 Hin3) in Hcol.
      apply IH in H as (Hnd' & Hc' & Ht); [| done | done |].
      * split; [done | split; [done|]].
        apply (f_equal (take (S i))) in Ht. rewrite !take_take in Ht.
        by replace (S i `min` S (i + 1))%nat with (S i) in Ht by lia.
      * intros k q1 q2 q3 Hk Hq1 Hq2 Hq3.
        destruct (decide (k = i)) as [->|Hki].
        -- congruence.
        -- apply (Hc k q1 q2 q3); done || lia.
Qed.

(** A path made of corners only, on which the routine is exact, is left
    as it is. *)
Lemma prune_loop_fixed (np_det : determinant) (fuel : nat) :
  forall (i : nat) (l : list node),
    exact_on np_det l ->
    corners_before (length l) l -> (length l <= fuel + i + 2)%nat ->
    prune_loop np_det fuel i l = Ok l.
Proof.
  induction fuel as [|f IH]; intros i l Hex Hc Hlen; simpl;
    destruct (Z.ltb_spec (Z.of_nat i) (Z.of_nat (length l) - 2)) as [Hlt|Hge];
    try lia; try done.
  destruct (lookup_lt_is_Some_2 l i ltac:(lia)) as [p1 H1]. rewrite H1.
  destruct (lookup_lt_is_Some_2 l (i + 1) ltac:(lia)) as [p2 H2]. rewrite H2.
  destruct (lookup_lt_is_Some_2 l (i + 2) ltac:(lia)) as [p3 H3]. rewrite H3.
  assert (Hd : det3 p1 p2 p3 <> 0) by (apply (Hc i p1 p2 p3); try done; lia).
  apply (collinearity_check_false np_det l) in Hd;
    [|done | apply list_elem_of_lookup; eauto ..].
  rewrite Hd. apply IH; [done | done | lia].
Qed.

(** Where the routine is exact on the points of the path, the loop runs as
    it does in exact arithmetic. *)
Lemma prune_loop_exact (np_det : determinant) (fuel : nat) :
  forall (i : nat) (l : list node),
    exact_on np_det l -> prune_loop np_det fuel i l = prune_loop exact_det fuel i l.
Proof.
  induction fuel as [|f IH]; intros i l Hex; simpl; [done|].
  destruct (Z.of_nat i <? Z.of_nat (length l) - 2); [|done].
  destruct (l !! i) as [p1|] eqn:H1; [|done].
  destruct (l !! (i + 1)%nat) as [p2|] eqn:H2; [|done].
  destruct (l !! (i + 2)%nat) as [p3|] eqn:H3; [|done].
  assert (Hin1 : p1 ∈ l) by (apply list_elem_of_lookup; eauto).
  assert (Hin2 : p2 ∈ l) by (apply list_elem_of_lookup; eauto).
  assert (Hin3 : p3 ∈ l) by (apply list_elem_of_lookup; eauto).
  rewrite (Hex p1 p2 p3 Hin1 Hin2 Hin3), (exact_det_exact_on l p1 p2 p3 Hin1 Hin2 Hin3).
  destruct (det3 p1 p2 p3 =? 0); apply IH; [|done].
  eapply exact_on_sublist; [apply list_remove_sublist | done].
Qed.

Lemma prune_path_exact (np_det : determinant) (l : list node) :
  exact_on np_det l -> prune_path np_det (Some l) = prune_path exact_det (Some l).
Proof. intros Hex. by apply prune_loop_exact. Qed.

Example prune_line :
  prune_path exact_det (Some [(0,0); (1,0); (2,0); (3,0); (4,0)]) = Ok [(0,0); (4,0)].
Proof. reflexivity. Qed.

Example prune_corner : prune_path exact_det (Some corner_path) = Ok [(0,0); (2,0); (2,2)].
Proof. reflexivity. Qed.

(** [prune_path] returns on every list, and what it returns is a
    subsequence of the input with the same last point; in particular a
    non-empty input gives a non-empty output. *)
Lemma prune_path_sublist (np_det : determinant) (l : list node) :
  exists l', prune_path np_det (Some l) = Ok l' /\ sublist l' l /\ last l' = last l
             /\ (l <> [] -> l' <> []).
Proof.
  destruct (prune_loop_total np_det (length l) 0 l ltac:(lia)) as [l' Hl'].
  exists l'. destruct (prune_loop_sublist _ _ _ _ _ Hl') as [Hs Hlast].
  repeat split; try done.
  intros Hne ->. destruct l; [done|]. by rewrite last_cons in Hlast; destruct (last l).
Qed.

(** When no point occurs twice the first point is kept as well. *)
Lemma prune_path_head (np_det : determinant) (l l' : list node) :
  NoDup l -> prune_path np_det (Some l) = Ok l' -> head l' = head l.
Proof.
  intros Hnd H. apply prune_loop_prefix in H as (_ & Ht); [|done].
  rewrite !head_lookup. apply (f_equal (.!! 0%nat)) in Ht.
  by rewrite !lookup_take_lt in Ht by lia.
Qed.

(** C6 (the code departs from it): on [revisiting_path] the point
    [list.remove] deletes is the first occurrence of the value, which is the
    first point of the path, so the output no longer starts where the input
    starts.  This holds for every determinant routine that is exact on the
    four cells of the path. *)
Theorem prune_path_drops_first_point (np_det : determinant) :
  exact_on np_det revisiting_path ->
  prune_path np_det (Some revisiting_path) = Ok [(1,0); (1,1); (0,0); (-1,-1)]
  /\ head revisiting_path = Some (0,0)
  /\ head [(1,0); (1,1); (0,0); (-1,-1)] = Some (1,0)
  /\ (exists l', prune_path np_det (Some revisiting_path) = Ok l'
                 /\ head l' <> head revisiting_path).
Proof.
  intros Hex. rewrite (prune_path_exact np_det revisiting_path Hex).
  repeat split. exists [(1,0); (1,1); (0,0); (-1,-1)]. split; [reflexivity | discriminate].
Qed.

Lemma prune_path_drops_first_point_witness :
  prune_path exact_det (Some revisiting_path) = Ok [(1,0); (1,1); (0,0); (-1,-1)]
  /\ head revisiting_path = Some (0,0)
  /\ head [(1,0); (1,1); (0,0); (-1,-1)] = Some (1,0)
  /\ (exists l', prune_path exact_det (Some revisiting_path) = Ok l'
                 /\ head l' <> head revisiting_path).
Proof. apply prune_path_drops_first_point. apply exact_det_exact_on. Defined.

(** C8, as stated, fails: with any determinant routine that is exact on
    the three cells of [backtracking_path], and so with one free of rounding
    error, pruning the path once gives a path that a second pruning shortens
    again. *)
Lemma prune_path_not_idempotent :
  (forall np_det : determinant,
     exact_on np_det backtracking_path ->
     prune_path np_det (Some backtracking_path) = Ok [(0,0); (1,0); (1,0)]
     /\ prune_path np_det (Some [(0,0); (1,0); (1,0)]) = Ok [(0,0); (1,0)]
     /\ ~ (forall l l', prune_path np_det (Some l) = Ok l' ->
                        prune_path np_det (Some l') = Ok l'))
  /\ exact_on exact_det backtracking_path.
Proof.
  split; [|apply exact_det_exact_on]. intros np_det Hex.
  assert (H1 : prune_path np_det (Some backtracking_path) = Ok [(0,0); (1,0); (1,0)])
    by (by rewrite (prune_path_exact np_det backtracking_path Hex)).
  assert (H2 : prune_path np_det (Some [(0,0); (1,0); (1,0)]) = Ok [(0,0); (1,0)]).
  { rewrite prune_path_exact; [reflexivity|].
    eapply exact_on_subseteq; [|exact Hex].
    intros x Hx. unfold backtracking_path.
    rewrite !elem_of_cons in Hx. rewrite !elem_of_cons. intuition auto. }
  split; [done|]. split; [done|].
  intros H. specialize (H backtracking_path [(0,0); (1,0); (1,0)] H1).
  rewrite H2 in H. discriminate H.
Qed.

(** C8 (amended): on a path whose points are pairwise distinct and on
    which the determinant routine is exact, [prune_path] applied to its own
    output returns that output unchanged. *)
Theorem prune_path_idempotent (np_det : determinant) (l l' : list node) :
  NoDup l -> exact_on np_det l ->
  prune_path np_det (Some l) = Ok l' -> prune_path np_det (Some l') = Ok l'.
Proof.
  intros Hnd Hex H.
  destruct (prune_loop_sublist _ _ _ _ _ H) as [Hs _].
  apply prune_loop_corners in H as (_ & Hc & _); [|done|done|].
  - apply prune_loop_fixed; [by eapply exact_on_sublist | done | lia].
  - intros k p1 p2 p3 Hk. lia.
Qed.

(** The L-shaped walk is pruned to its three corners, and these stay. *)
Lemma prune_path_idempotent_witness :
  prune_path exact_det (Some [(0,0); (2,0); (2,2)]) = Ok [(0,0); (2,0); (2,2)].
Proof.
  apply (prune_path_idempotent exact_det corner_path).
  - apply (bool_decide_unpack _). vm_compute. exact I.
  - apply exact_det_exact_on.
  - reflexivity.
Defined.

(** C10: called with [None], [prune_path] raises the unbound-local error;
    called with a list it always returns one, whatever the determinant
    routine answers. *)
Theorem prune_path_None (np_det : determinant) :
  prune_path np_det None = Raise UnboundLocalError
  /\ forall l : list node, exists l', prune_path np_det (Some l) = Ok l'.
Proof.
  split; [reflexivity|]. intros l.
  destruct (prune_path_sublist np_det l) as (l' & H & _). eauto.
Qed.

(** ** The DISARMING state *)

Lemma invert_land (a g : bool) : truth (Z.land (invert a) (invert g)) = true.
Proof. by destruct a, g. Qed.

(** C4 (the code departs from it): whatever the [armed] and [guided]
    flags report, a state update received in [DISARMING] stops the mission
    and moves to [MANUAL], because [~] on a Python [bool] is never zero. *)
Theorem state_callback_disarming (np_det : determinant) (h : node -> node -> Q)
    (global_to_local : Q * Q * Q -> Q * Q * Q -> Q * Q * Q)
    (colliders : Q * Q * list obstacle) (a g : bool) :
  exists d', state_callback np_det h global_to_local colliders (disarming_drone a g) = Normal d'
             /\ flight_state d' = MANUAL /\ in_mission d' = false
             /\ issued d' = [stop].
Proof.
  unfold state_callback. simpl. rewrite invert_land.
  eexists. split; [reflexivity|]. done.
Qed.

(** ** Planning when the search fails *)

Lemma setitem_nth_error (l t : list Q) (i : nat) (v : Q) :
  setitem l i v = Some t -> nth_error t i = Some v.
Proof.
  revert i t. induction l as [|x l IH]; intros [|i] t; simpl; try done.
  - by intros [= <-].
  - destruct (setitem l i v) as [t'|] eqn:E; simpl; [|done].
    intros [= <-]. simpl. by apply IH.
Qed.

(** Once a plan is stored, every handler ends normally and leaves the
    object in such a state again. *)
Lemma receive_flying (np_det : determinant) (h : node -> node -> Q)
    (global_to_local : Q * Q * Q -> Q * Q * Q -> Q * Q * Q)
    (colliders : Q * Q * list obstacle) (ev : event) (d : MotionPlanning) :
  flying d -> exists d', receive np_det h global_to_local colliders ev d = Normal d' /\ flying d'.
Proof.
  destruct d as [tp wps im fs ar gu lp lv gp gh al iss].
  unfold flying. simpl. intros (Hlen & Hall & Hst).
  destruct tp as [|t0 [|t1 [|t2 tp]]]; simpl in Hlen; try lia.
  destruct ev as [a g|p|v|p|p]; unfold receive, store; simpl.
  - unfold state_callback. simpl. destruct im; [|eauto 10].
    destruct fs; simpl; try done; try (eexists; split; [reflexivity|]; simpl; eauto 10; fail).
    rewrite invert_land. eexists. split; [reflexivity|]. simpl. auto with lia.
  - unfold local_position_callback. simpl.
    destruct fs; simpl; try (eexists; split; [reflexivity|]; simpl; eauto 10; fail).
    + destruct (Qltb _ _); [|eexists; split; [reflexivity|]; simpl; eauto 10].
      unfold waypoint_transition. simpl.
      destruct wps as [|w wps]; [done|]. apply Forall_cons in Hall as [Hw Hall].
      destruct w as [|w0 [|w1 [|w2 [|w3 w]]]]; simpl in Hw; try lia.
      eexists. split; [reflexivity|]. simpl. auto with lia.
    + destruct p as [[pn pe] pd]. destruct (Qltb _ _);
        [|eexists; split; [reflexivity|]; simpl; eauto 10].
      destruct wps as [|w wps]; simpl.
      * destruct lv as [[vn ve] vd]. destruct (Qltb _ _);
          eexists; (split; [reflexivity|]); simpl; auto with lia.
      * unfold waypoint_transition. simpl. apply Forall_cons in Hall as [Hw Hall].
        destruct w as [|w0 [|w1 [|w2 [|w3 w]]]]; simpl in Hw; try lia.
        eexists. split; [reflexivity|]. simpl. auto with lia.
  - unfold velocity_callback. simpl.
    destruct fs; simpl; try (eexists; split; [reflexivity|]; simpl; eauto 10; fail).
    destruct (Qltb _ _); [|eexists; split; [reflexivity|]; simpl; eauto 10].
    destruct (Qltb _ _); eexists; (split; [reflexivity|]); simpl; auto with lia.
  - eexists. split; [reflexivity|]. simpl. auto with lia.
  - eexists. split; [reflexivity|]. simpl. auto with lia.
Qed.

Lemma flying_recoverable (np_det : determinant) (h : node -> node -> Q)
    (global_to_local : Q * Q * Q -> Q * Q * Q -> Q * Q * Q)
    (colliders : Q * Q * list obstacle) (d : MotionPlanning) :
  flying d -> recoverable np_det h global_to_local colliders d.
Proof.
  intros Hd evs. revert d Hd.
  induction evs as [|ev evs IH]; intros d Hd; simpl; [eauto|].
  destruct (receive_flying np_det h global_to_local colliders ev d Hd) as (d' & -> & Hd').
  by apply IH.
Qed.

Lemma setitem_length (l t : list Q) (i : nat) (v : Q) :
  setitem l i v = Some t -> length t = length l /\ (i < length l)%nat.
Proof.
  revert i t. induction l as [|x l IH]; intros [|i] t; simpl; try done.
  - intros [= <-]. simpl. lia.
  - destruct (setitem l i v) as [t'|] eqn:E; simpl; [|done].
    intros [= <-]. simpl. destruct (IH i t' E). lia.
Qed.

(** A table of two or more rows is loaded as a two-dimensional array. *)
Lemma create_grid_on_loadtxt (data : list obstacle) (da sd : Q) :
  (2 <= length data)%nat -> create_grid_on (loadtxt data) da sd = create_grid data da sd.
Proof. destruct data as [|o [|o' data]]; simpl; (lia || done). Qed.

(** A plan with at least one waypoint leaves the state machine in a state
    from which every further handler ends normally. *)
Lemma plan_path_recoverable (np_det : determinant) (h : node -> node -> Q)
    (global_to_local : Q * Q * Q -> Q * Q * Q -> Q * Q * Q)
    (colliders : Q * Q * list obstacle) (d d1 : MotionPlanning) :
  plan_path np_det h global_to_local colliders d = Normal d1 ->
  waypoints d1 <> [] ->
  recoverable np_det h global_to_local colliders d1.
Proof.
  intros Hplan Hne. apply flying_recoverable. revert Hplan.
  unfold plan_path. destruct colliders as [[lat0 lon0] data].
  destruct (setitem _ _ _) as [t|] eqn:Ht; [|done]. simpl.
  destruct (create_grid_on _ _ _) as [[[grid no] eo]|]; [|done].
  destruct (a_star _ _ _ _) as [[path c]|]; [|done].
  destruct (prune_loop np_det (length path) 0 path) as [path'|]; [|done].
  intros [= <-]. simpl in Hne. unfold flying. simpl.
  destruct (setitem_length _ _ _ _ Ht) as [-> ?].
  split; [simpl in *; lia|]. split; [|done].
  apply Forall_forall. intros w (q & -> & _)%list_elem_of_fmap. simpl. lia.
Qed.

(** After a plan without waypoints the climb ends in an exception. *)
Lemma empty_plan_raises (np_det : determinant) (h : node -> node -> Q)
    (global_to_local : Q * Q * Q -> Q * Q * Q -> Q * Q * Q)
    (colliders : Q * Q * list obstacle) (d : MotionPlanning) (t : Q)
    (a g : bool) (p : Q * Q * Q) :
  in_mission d = true -> flight_state d = PLANNING -> waypoints d = [] ->
  nth_error (target_position d) 2 = Some t ->
  Qltb ((95 # 100) * t) (- (1) * snd p) = true ->
  exists d', run np_det h global_to_local colliders [STATE a g; LOCAL_POSITION p] d
             = Raised IndexError d'
             /\ flight_state d' = WAYPOINT.
Proof.
  intros Hm Hs Hw Ht Hclimb.
  unfold run, receive, state_callback, store. simpl. rewrite Hm, Hs.
  unfold takeoff_transition. simpl in Ht |- *. rewrite Ht.
  unfold local_position_callback. simpl. rewrite Ht, Hclimb.
  unfold waypoint_transition. simpl. rewrite Hw. eauto.
Qed.

(** From [MANUAL] a first state update arms the vehicle and a second one,
    reporting it armed, plans. *)
Example manual_arming_planning :
  exists d1 d2,
    receive exact_det manhattan offset_from_home yard (STATE false false) (init armed_drone) = Normal d1
    /\ flight_state d1 = ARMING /\ issued d1 = [arm; take_control]
    /\ receive exact_det manhattan offset_from_home yard (STATE true true) d1 = Normal d2
    /\ flight_state d2 = PLANNING.
Proof.
  eexists _, _. split; [by vm_compute|]. split; [done|]. split; [done|].
  split; [by vm_compute | done].
Qed.

(** C3, as stated, fails: in the yard, whose table has two rows, the
    search returns the empty path; [plan_path] writes the empty waypoint list
    to the connection and ends normally in [PLANNING]; the next state update
    commands the takeoff, and the position update that reports the climb
    raises in [waypoint_transition], in flight state [WAYPOINT].  The state
    [plan_path] leaves is not recoverable.  The path being empty, the
    determinant routine is never called. *)
Lemma plan_path_failure_not_propagated :
  exists d1 d2 d3,
    state_callback exact_det manhattan offset_from_home yard armed_drone = Normal d1
    /\ waypoints d1 = [] /\ flight_state d1 = PLANNING
    /\ issued d1 = [arm; take_control; set_home_position (-122) 37 0; write []]
    /\ receive exact_det manhattan offset_from_home yard (STATE true true) d1 = Normal d2
    /\ flight_state d2 = TAKEOFF
    /\ issued d2 = [arm; take_control; set_home_position (-122) 37 0; write []; takeoff 5]
    /\ receive exact_det manhattan offset_from_home yard (LOCAL_POSITION (0, 0, -5)%Q) d2
       = Raised IndexError d3
    /\ flight_state d3 = WAYPOINT
    /\ ~ recoverable exact_det manhattan offset_from_home yard d1.
Proof.
  eexists _, _, _.
  split; [by vm_compute|]. split; [done|]. split; [done|]. split; [done|].
  split; [by vm_compute|]. split; [done|]. split; [done|].
  split; [by vm_compute|]. split; [done|].
  intros H. destruct (H [STATE true true; LOCAL_POSITION (0, 0, -5)%Q]) as [d' Hd'].
  vm_compute in Hd'. discriminate Hd'.
Qed.

(** C3 (amended): when the search returns the empty path, which supposes
    a table of two or more rows from which the grid was built, [plan_path]
    stores an empty waypoint list, sends that empty list, issues no flight
    command of its own and ends normally in [PLANNING]; it reports no
    failure, and the following state update commands the takeoff as it
    does after a successful plan. *)
Theorem plan_path_search_failed (np_det : determinant) (h : node -> node -> Q)
    (global_to_local : Q * Q * Q -> Q * Q * Q -> Q * Q * Q)
    (lat0 lon0 : Q) (data : list obstacle) (d : MotionPlanning) (t : list Q)
    (grid : ndarray) (north_offset east_offset : Z) :
  in_mission d = true ->
  setitem (target_position d) 2 (inject_Z TARGET_ALTITUDE) = Some t ->
  (2 <= length data)%nat ->
  create_grid data (inject_Z TARGET_ALTITUDE) (inject_Z SAFETY_DISTANCE)
  = Ok (grid, north_offset, east_offset) ->
  a_star grid h (grid_start global_to_local d north_offset east_offset)
         (grid_goal global_to_local d north_offset east_offset) = Ok ([], 0) ->
  exists d1 d2,
    plan_path np_det h global_to_local (lat0, lon0, data) d = Normal d1
    /\ waypoints d1 = [] /\ flight_state d1 = PLANNING
    /\ issued d1 = issued d ++ [set_home_position lon0 lat0 0; write []]
    /\ state_callback np_det h global_to_local (lat0, lon0, data) d1 = Normal d2
    /\ flight_state d2 = TAKEOFF /\ waypoints d2 = []
    /\ issued d2 = issued d1 ++ [takeoff (inject_Z TARGET_ALTITUDE)].
Proof.
  intros Hmission Ht Hrows Hgrid Hsearch.
  pose proof (setitem_nth_error _ _ _ _ Ht) as Hnth.
  eexists _, _. split.
  { unfold plan_path. simpl. rewrite Ht, (create_grid_on_loadtxt data _ _ Hrows), Hgrid. simpl.
    unfold grid_start, grid_goal in *. simpl. rewrite Hsearch. simpl. reflexivity. }
  split; [done|]. split; [done|].
  split; [simpl; by rewrite <- app_assoc|]. split.
  { unfold state_callback. simpl. rewrite Hmission.
    unfold takeoff_transition. simpl in Hnth |- *. rewrite Hnth. reflexivity. }
  done.
Qed.

(** The armed vehicle in the yard. *)
Lemma plan_path_search_failed_witness :
  exists d1 d2,
    plan_path exact_det manhattan offset_from_home yard armed_drone = Normal d1
    /\ waypoints d1 = [] /\ flight_state d1 = PLANNING
    /\ issued d1 = issued armed_drone ++ [set_home_position (-122) 37 0; write []]
    /\ state_callback exact_det manhattan offset_from_home yard d1 = Normal d2
    /\ flight_state d2 = TAKEOFF /\ waypoints d2 = []
    /\ issued d2 = issued d1 ++ [takeoff (inject_Z TARGET_ALTITUDE)].
Proof.
  eapply (plan_path_search_failed exact_det manhattan offset_from_home 37 (-122) (snd yard)
            armed_drone).
  - reflexivity.
  - reflexivity.
  - simpl. lia.
  - reflexivity.
  - vm_compute. reflexivity.
Defined.

(* ===================================================================== *)
(** * Further properties *)

(** ** prune_path on arbitrary and on simple paths *)

Lemma prune_loop_two (np_det : determinant) (fuel : nat) :
  forall (i : nat) (l l' : list node),
    prune_loop np_det fuel i l = Ok l' ->
    (length l' <= length l)%nat /\ (2 <= length l -> 2 <= length l')%nat.
Proof.
  induction fuel as [|f IH]; intros i l l'; simpl;
    destruct (Z.ltb_spec (Z.of_nat i) (Z.of_nat (length l) - 2)) as [Hlt|Hge];
    intros H; try discriminate; try (injection H as <-; lia).
  destruct (l !! i) as [p1|]; [|discriminate].
  destruct (l !! (i + 1)%nat) as [p2|] eqn:H2; [|discriminate].
  destruct (l !! (i + 2)%nat) as [p3|]; [|discriminate].
  destruct (collinearity_check np_det (point p1) (point p2) (point p3));
    apply IH in H as [Hle Hge]; [|lia].
  assert (Hin : p2 ∈ l) by (apply list_elem_of_lookup; eauto).
  pose proof (list_remove_length p2 l Hin). lia.
Qed.

(** X1: on every list, and whatever the determinant routine answers,
    [prune_path] returns; what it returns is a subsequence of the input
    with the same last point, and a path of two or more points is never cut
    below two points. *)
Theorem prune_path_subsequence (np_det : determinant) (l : list node) :
  exists l', prune_path np_det (Some l) = Ok l'
             /\ sublist l' l /\ last l' = last l
             /\ (length l' <= length l)%nat
             /\ (2 <= length l -> 2 <= length l')%nat.
Proof.
  destruct (prune_loop_total np_det (length l) 0 l ltac:(lia)) as [l' Hl'].
  exists l'. destruct (prune_loop_sublist _ _ _ _ _ Hl') as [Hs Hlast].
  destruct (prune_loop_two _ _ _ _ _ Hl') as [Hle Hge]. done.
Qed.

(** X2: a path of fewer than three points is returned as it is, without a
    call of the determinant routine. *)
Theorem prune_path_short (np_det : determinant) (l : list node) :
  (length l < 3)%nat -> prune_path np_det (Some l) = Ok l.
Proof.
  intros Hlen. destruct l as [|a [|b [|c l]]]; try reflexivity. simpl in Hlen. lia.
Qed.

Lemma prune_path_short_witness :
  prune_path exact_det (Some [(4,2); (4,3)]) = Ok [(4,2); (4,3)].
Proof. apply prune_path_short. simpl. lia. Defined.

(** X3: when no point occurs twice, the output starts with the first
    point of the input, ends with its last point, and has no repeated point
    either, whatever the determinant routine answers. *)
Theorem prune_path_endpoints (np_det : determinant) (l l' : list node) :
  NoDup l -> prune_path np_det (Some l) = Ok l' ->
  head l' = head l /\ last l' = last l /\ NoDup l'.
Proof.
  intros Hnd H. split; [by eapply prune_path_head|].
  destruct (prune_loop_sublist _ _ _ _ _ H) as [Hs Hlast]. split; [done|].
  by eapply sublist_NoDup.
Qed.

Lemma prune_path_endpoints_witness :
  head [(0,0); (2,0); (2,2)] = head corner_path
  /\ last [(0,0); (2,0); (2,2)] = last corner_path
  /\ NoDup [(0,0); (2,0); (2,2)].
Proof.
  apply (prune_path_endpoints exact_det).
  - apply (bool_decide_unpack _). vm_compute. exact I.
  - reflexivity.
Defined.

(** X4: when no point occurs twice and the determinant routine is exact
    on the points of the path, no three consecutive points of the output
    pass the collinearity test: every point left between the two ends is a
    corner. *)
Theorem prune_path_corners (np_det : determinant) (l l' : list node) (i : nat)
    (p1 p2 p3 : node) :
  NoDup l -> exact_on np_det l -> prune_path np_det (Some l) = Ok l' ->
  l' !! i = Some p1 -> l' !! (i + 1)%nat = Some p2 -> l' !! (i + 2)%nat = Some p3 ->
  collinearity_check np_det (point p1) (point p2) (point p3) = false.
Proof.
  intros Hnd Hex H H1 H2 H3.
  destruct (prune_loop_sublist _ _ _ _ _ H) as [Hs _].
  apply prune_loop_corners in H as (_ & Hc & _); [|done|done|].
  - apply (collinearity_check_false np_det l' p1 p2 p3);
      [by eapply exact_on_sublist | apply list_elem_of_lookup; eauto ..|].
    apply (Hc i p1 p2 p3); try done.
    apply lookup_lt_Some in H3. lia.
  - intros k q1 q2 q3 Hk. lia.
Qed.

Lemma prune_path_corners_witness :
  collinearity_check exact_det (point (0,0)) (point (2,0)) (point (2,2)) = false.
Proof.
  apply (prune_path_corners exact_det corner_path [(0,0); (2,0); (2,2)] 0).
  - apply (bool_decide_unpack _). vm_compute. exact I.
  - apply exact_det_exact_on.
  - reflexivity.
  - reflexivity.
  - reflexivity.
  - reflexivity.
Defined.

(** X5: a path of two or more distinct points that all lie on one line is
    reduced to its first and its last point, when the determinant routine is
    exact on the points of the path. *)
Theorem prune_path_line (np_det : determinant) (l : list node) :
  NoDup l -> exact_on np_det l -> on_line l -> (2 <= length l)%nat ->
  exists a b, head l = Some a /\ last l = Some b
              /\ prune_path np_det (Some l) = Ok [a; b].
Proof.
  intros Hnd Hex Hline Hlen.
  destruct (prune_loop_total np_det (length l) 0 l ltac:(lia)) as [l' Hl'].
  destruct (prune_loop_sublist _ _ _ _ _ Hl') as [Hs Hlast].
  destruct (prune_loop_two _ _ _ _ _ Hl') as [_ Hge]. specialize (Hge Hlen).
  pose proof (prune_path_head np_det l l' Hnd Hl') as Hhead.
  assert (H0 : corners_before 0 l) by (intros k ? ? ? Hk; lia).
  destruct (prune_loop_corners _ _ _ _ _ Hnd Hex H0 Hl') as (_ & Hc & _).
  destruct l' as [|a [|b [|c l']]]; simpl in Hge; try lia.
  - exists a, b. split; [by rewrite <- Hhead|]. split; [by rewrite <- Hlast|].
    exact Hl'.
  - exfalso. apply (Hc 0%nat a b c); [simpl; lia|done..|].
    apply Hline; (eapply elem_of_sublist; [|exact Hs]);
      rewrite !elem_of_cons; auto.
Qed.

Lemma prune_path_line_witness :
  exists a b, head [(3,1); (3,2); (3,3); (3,4)] = Some a
              /\ last [(3,1); (3,2); (3,3); (3,4)] = Some b
              /\ prune_path exact_det (Some [(3,1); (3,2); (3,3); (3,4)]) = Ok [a; b].
Proof.
  apply prune_path_line.
  - apply (bool_decide_unpack _). vm_compute. exact I.
  - apply exact_det_exact_on.
  - intros p q r Hp Hq Hr.
    repeat (apply elem_of_cons in Hp as [->|Hp]); [..|by apply elem_of_nil in Hp];
      repeat (apply elem_of_cons in Hq as [->|Hq]); try (by apply elem_of_nil in Hq);
      repeat (apply elem_of_cons in Hr as [->|Hr]); try (by apply elem_of_nil in Hr);
      reflexivity.
  - simpl. lia.
Defined.

(** ** The path a_star hands back *)

(** What the walk along the predecessors collects: it is appended to what
    was collected before, each point is the recorded predecessor of the one
    before it, and [start] is met at the end and nowhere earlier. *)
Lemma retrace_stops (br : gmap node (Z * node * Action)) (start : node) (fuel : nat) :
  forall (n : node) (acc r : list node),
    retrace fuel br start n acc = Ok r ->
    exists path,
      r = acc ++ path /\ last path = Some start
      /\ (forall (i : nat) (u : node),
            path !! i = Some u -> (S i < length path)%nat -> u <> start)
      /\ (forall (i : nat) (u v : node),
            (n :: path) !! i = Some u -> (n :: path) !! S i = Some v ->
            exists c a, br !! u = Some (c, v, a)).
Proof.
  induction fuel as [|f IH]; intros n acc r; simpl;
    destruct (br !! n) as [[[c p] a]|] eqn:Hn; try done;
    destruct (node_eqb_spec p start) as [->|Hp]; try done.
  - intros [= <-]. exists [start]. split; [done|]. split; [done|]. split.
    + intros [|i] u Hu Hi; simpl in Hi; lia.
    + intros [|[|i]] u v Hu Hv; simplify_eq/=. eauto.
  - intros [= <-]. exists [start]. split; [done|]. split; [done|]. split.
    + intros [|i] u Hu Hi; simpl in Hi; lia.
    + intros [|[|i]] u v Hu Hv; simplify_eq/=. eauto.
  - intros H. apply IH in H as (path & -> & Hlast & Hns & Hl).
    exists (p :: path). split; [by rewrite <- app_assoc|].
    split; [destruct path; [done | by rewrite last_cons_cons]|]. split.
    + intros [|i] u Hu Hi; simpl in Hu, Hi; simplify_eq; [done|].
      apply (Hns i); [done | lia].
    + intros [|i] u v Hu Hv; simpl in Hu, Hv; simplify_eq; [eauto|].
      by apply (Hl i).
Qed.

(** Along such a walk the recorded costs count the points still to come. *)
Lemma linked_costs (start : node) (st : frontier) (l : list node) (k : nat) :
  branch_costs start st -> linked st l ->
  last l = Some start ->
  (forall (i : nat) (u : node), l !! i = Some u -> (S i < length l)%nat -> u <> start) ->
  forall (i : nat) (u : node),
    l !! i = Some u -> (S i + k = length l)%nat -> (0 < k)%nat ->
    exists p a, branch st !! u = Some (Z.of_nat k, p, a).
Proof.
  intros Hcosts Hl Hlast Hns. induction k as [|k IH]; intros i u Hu Hi Hk; [lia|].
  destruct (l !! S i) as [v|] eqn:Hv; [|apply lookup_ge_None in Hv; lia].
  destruct (Hl i u v Hu Hv) as (c & a & Hb). exists v, a.
  destruct (Hcosts _ _ _ _ Hb) as (_ & [[-> ->]|[Hvs (cp & pp & ap & Hbv & ->)]]).
  - destruct k as [|k]; [done|]. exfalso. by apply (Hns (S i) start Hv); [lia|].
  - destruct k as [|k].
    + exfalso. apply Hvs. rewrite last_lookup in Hlast.
      replace (pred (length l)) with (S i) in Hlast by lia. congruence.
    + destruct (IH (S i) v Hv ltac:(lia) ltac:(lia)) as (p' & a' & Hbv').
      rewrite Hbv in Hbv'. simplify_eq. rewrite Hb. do 3 f_equal. lia.
Qed.

Lemma linked_NoDup (start : node) (st : frontier) (l : list node) :
  branch_costs start st -> linked st l ->
  last l = Some start ->
  (forall (i : nat) (u : node), l !! i = Some u -> (S i < length l)%nat -> u <> start) ->
  NoDup l.
Proof.
  intros Hcosts Hl Hlast Hns. apply NoDup_alt. intros i j u Hi Hj.
  pose proof (lookup_lt_Some _ _ _ Hi) as Hli. pose proof (lookup_lt_Some _ _ _ Hj) as Hlj.
  destruct (decide (S i = length l)) as [Hie|Hie], (decide (S j = length l)) as [Hje|Hje];
    [lia | | |].
  - exfalso. apply (Hns j u Hj); [lia|]. rewrite last_lookup in Hlast.
    replace (pred (length l)) with i in Hlast by lia. congruence.
  - exfalso. apply (Hns i u Hi); [lia|]. rewrite last_lookup in Hlast.
    replace (pred (length l)) with j in Hlast by lia. congruence.
  - destruct (linked_costs start st l (length l - S i) Hcosts Hl Hlast Hns i u Hi)
      as (p & a & Hb); [lia..|].
    destruct (linked_costs start st l (length l - S j) Hcosts Hl Hlast Hns j u Hj)
      as (p' & a' & Hb'); [lia..|].
    rewrite Hb in Hb'. simplify_eq. lia.
Qed.

(** Two neighbours of a reversed list are neighbours, the other way round,
    of the list. *)
Lemma reverse_neighbours {A : Type} (l : list A) (i : nat) (a b : A) :
  reverse l !! i = Some a -> reverse l !! S i = Some b ->
  exists j : nat, l !! j = Some b /\ l !! S j = Some a.
Proof.
  intros Ha Hb. apply reverse_lookup_Some in Ha as [Ha Hi], Hb as [Hb Hi'].
  exists (length l - S (S i))%nat. split; [done|].
  by replace (S (length l - S (S i))) with (length l - S i)%nat by lia.
Qed.

(** Whenever [a_star], started on the grid, hands back a path that is not
    empty, the path leads from [start] to [goal], passes no cell twice,
    moves by one step onto a free cell each time, and the cost handed back
    with it is its number of steps. *)
Lemma a_star_trace (grid : ndarray) (h : node -> node -> Q) (start goal : node)
    (path : list node) (c : Z) :
  in_bounds grid start ->
  a_star grid h start goal = Ok (path, c) -> path <> [] ->
  start <> goal
  /\ head path = Some start /\ last path = Some goal
  /\ NoDup path
  /\ (forall (i : nat) (a b : node),
        path !! i = Some a -> path !! S i = Some b -> step grid a b)
  /\ c = Z.of_nat (length path) - 1.
Proof.
  intros Hstart Ha Hne.
  assert (Hsg : start <> goal).
  { intros <-. revert Ha. unfold a_star, search_fuel. simpl.
    destruct (node_eqb_spec start start); [|done]. simpl. by rewrite lookup_empty. }
  split; [done|].
  destruct (initial_book grid start) as [Hbook Hfuel].
  pose proof (initial_inv grid start goal Hstart) as Hinv.
  pose proof (search_total grid h start goal _ _ Hbook Hfuel) as Hbook'.
  destruct (search_correct grid h start goal _ _ Hbook Hinv Hfuel)
    as (found & st & Hs & Hmoves & Hres).
  rewrite Hs in Hbook'. revert Ha.
  unfold a_star. fold (initial start). rewrite Hs. simpl.
  destruct found; [|by intros [= <- <-]].
  destruct Hres as [Hreach [?|[[[cg p] a] Hg]]]; [congruence|]. rewrite Hg.
  destruct (retrace (size (branch st)) (branch st) start goal [goal]) as [r|e] eqn:Hr;
    [|done].
  simpl. intros [= <- <-].
  destruct (retrace_stops _ _ _ _ _ _ Hr) as (tl & -> & Hlast & Hns & Hl).
  change ([goal] ++ tl) with (goal :: tl) in *.
  assert (Hlast' : last (goal :: tl) = Some start)
    by (destruct tl; [done | by rewrite last_cons_cons]).
  assert (Hns' : forall (i : nat) (u : node),
             (goal :: tl) !! i = Some u -> (S i < length (goal :: tl))%nat -> u <> start).
  { intros [|i] u Hu Hi; simpl in Hu, Hi; simplify_eq; [done|].
    apply (Hns i); [done | lia]. }
  rewrite head_reverse, last_reverse, length_reverse.
  split; [done|]. split; [done|].
  split.
  { rewrite reverse_Permutation.
    exact (linked_NoDup start st _ (book_costs _ _ Hbook') Hl Hlast' Hns'). }
  split.
  - intros i u v Hu Hv. destruct (reverse_neighbours _ _ _ _ Hu Hv) as (j & Hj & HSj).
    destruct (Hl j v u Hj HSj) as (cv & av & Hb).
    destruct (Hmoves _ _ _ _ Hb) as [-> Hfree]. by exists av.
  - destruct (linked_costs start st (goal :: tl) (length tl) (book_costs _ _ Hbook') Hl
                Hlast' Hns' 0%nat goal eq_refl) as (p' & a' & Hb); [simpl; lia| |].
    + destruct tl; [done | simpl; lia].
    + rewrite Hg in Hb. simplify_eq. simpl. lia.
Qed.

(** A walk of unit moves is at least as long as the distance it covers,
    counted in rows plus columns. *)
Lemma walk_distance (l : list node) :
  forall a b : node,
    (forall (i : nat) (u v : node), l !! i = Some u -> l !! S i = Some v -> unit_move u v) ->
    head l = Some a -> last l = Some b ->
    Z.abs (fst b - fst a) + Z.abs (snd b - snd a) <= Z.of_nat (length l) - 1.
Proof.
  induction l as [|x [|y t] IH]; intros a b Hw Ha Hb; [done| |].
  - simpl in Ha, Hb. simplify_eq. simpl. lia.
  - simpl in Ha. simplify_eq. rewrite last_cons_cons in Hb.
    specialize (IH y b (fun i u v Hu Hv => Hw (S i) u v Hu Hv) eq_refl Hb).
    destruct (Hw 0%nat a y eq_refl eq_refl) as (act & ->).
    change (length (a :: move a act :: t)) with (S (length (move a act :: t))).
    destruct a as [ax ay], b as [bx by'], act; unfold move in *; simpl in *; lia.
Qed.

(** X6: whenever [a_star], started on a cell of the grid, returns a path
    that is not empty, the path begins at [start], ends at [goal], visits
    no cell twice, goes from each cell to the next by one of the four unit
    moves onto a cell that lies on the grid and is not marked [1], and the
    cost returned with it is its number of moves. *)
Theorem a_star_walk (grid : ndarray) (h : node -> node -> Q) (start goal : node)
    (path : list node) (c : Z) :
  in_bounds grid start ->
  a_star grid h start goal = Ok (path, c) -> path <> [] ->
  head path = Some start /\ last path = Some goal
  /\ NoDup path
  /\ (forall (i : nat) (a b : node),
        path !! i = Some a -> path !! S i = Some b ->
        (exists act : Action, b = move a act) /\ in_bounds grid b
        /\ cells grid (fst b) (snd b) <> 1)
  /\ c = Z.of_nat (length path) - 1.
Proof.
  intros Hstart Ha Hne.
  destruct (a_star_trace grid h start goal path c Hstart Ha Hne)
    as (_ & Hh & Hl & Hnd & Hsteps & Hc).
  split; [done|]. split; [done|]. split; [done|]. split; [|done].
  intros i a b Hi HSi. destruct (Hsteps i a b Hi HSi) as (act & -> & Hin & Hfree).
  split; [by exists act | done].
Qed.

Lemma a_star_walk_witness :
  head [(0,0); (0,1); (1,1)] = Some (0,0) /\ last [(0,0); (0,1); (1,1)] = Some (1,1)
  /\ NoDup [(0,0); (0,1); (1,1)]
  /\ (forall (i : nat) (a b : node),
        [(0,0); (0,1); (1,1)] !! i = Some a -> [(0,0); (0,1); (1,1)] !! S i = Some b ->
        (exists act : Action, b = move a act) /\ in_bounds (free_grid 2 2) b
        /\ cells (free_grid 2 2) (fst b) (snd b) <> 1)
  /\ 2 = Z.of_nat (length [(0,0); (0,1); (1,1)]) - 1.
Proof.
  apply (a_star_walk (free_grid 2 2) manhattan (0,0) (1,1)).
  - unfold in_bounds. simpl. lia.
  - by vm_compute.
  - done.
Defined.

(** X7: started on a cell of the grid with a goal other than the start,
    [a_star] raises nothing, and the path it returns is empty exactly when
    no sequence of unit moves over free cells leads from [start] to [goal];
    the cost returned with the empty path is zero. *)
Theorem a_star_empty_iff_unreachable (grid : ndarray) (h : node -> node -> Q)
    (start goal : node) :
  in_bounds grid start -> start <> goal ->
  exists path c, a_star grid h start goal = Ok (path, c)
                 /\ (path = [] <-> ~ reachable grid start goal)
                 /\ (path = [] -> c = 0).
Proof.
  intros Hstart Hne.
  destruct (a_star_cases grid h start goal Hstart Hne)
    as [(Hreach & path & c & Ha & Hc & Hh & _)|[Hun Ha]].
  - exists path, c. split; [done|]. split; [|by intros ->].
    split; [by intros -> | done].
  - exists [], 0. done.
Qed.

Lemma a_star_empty_iff_unreachable_witness :
  exists path c, a_star wall_grid manhattan (0,0) (0,2) = Ok (path, c)
                 /\ (path = [] <-> ~ reachable wall_grid (0,0) (0,2))
                 /\ (path = [] -> c = 0).
Proof.
  apply a_star_empty_iff_unreachable.
  - unfold in_bounds. simpl. lia.
  - done.
Defined.

(** X8: the cost returned with a path that is not empty is never below
    the distance from [start] to [goal] counted in rows plus columns. *)
Theorem a_star_cost_lower_bound (grid : ndarray) (h : node -> node -> Q)
    (start goal : node) (path : list node) (c : Z) :
  in_bounds grid start ->
  a_star grid h start goal = Ok (path, c) -> path <> [] ->
  Z.abs (fst goal - fst start) + Z.abs (snd goal - snd start) <= c.
Proof.
  intros Hstart Ha Hne.
  destruct (a_star_trace grid h start goal path c Hstart Ha Hne)
    as (_ & Hh & Hl & _ & Hsteps & ->).
  apply walk_distance; [|done..].
  intros i u v Hu Hv. destruct (Hsteps i u v Hu Hv) as (act & -> & _). by exists act.
Qed.

Lemma a_star_cost_lower_bound_witness :
  Z.abs (fst (1,1) - fst (0,0)) + Z.abs (snd (1,1) - snd (0,0)) <= 2.
Proof.
  apply (a_star_cost_lower_bound (free_grid 2 2) manhattan (0,0) (1,1) [(0,0); (0,1); (1,1)]).
  - unfold in_bounds. simpl. lia.
  - by vm_compute.
  - done.
Defined.

(** X9: the heuristic decides which path is returned, never whether one
    is: from a start on the grid, two runs with different heuristics either
    both return the empty path or both return a path. *)
Theorem a_star_heuristic_independent (grid : ndarray) (h1 h2 : node -> node -> Q)
    (start goal : node) (path1 path2 : list node) (c1 c2 : Z) :
  in_bounds grid start ->
  a_star grid h1 start goal = Ok (path1, c1) ->
  a_star grid h2 start goal = Ok (path2, c2) ->
  (path1 = [] <-> path2 = []).
Proof.
  intros Hstart H1 H2.
  assert (Hne : start <> goal).
  { intros <-. revert H1. unfold a_star, search_fuel. simpl.
    destruct (node_eqb_spec start start); [|done]. simpl. by rewrite lookup_empty. }
  destruct (a_star_cases grid h1 start goal Hstart Hne)
    as [(Hr1 & p1 & d1 & Ha1 & _ & Hh1 & _)|[Hu1 Ha1]];
    destruct (a_star_cases grid h2 start goal Hstart Hne)
      as [(Hr2 & p2 & d2 & Ha2 & _ & Hh2 & _)|[Hu2 Ha2]];
    rewrite Ha1 in H1; rewrite Ha2 in H2; simplify_eq; try done.
  split; intros ->; done.
Qed.

Lemma a_star_heuristic_independent_witness :
  [(0,0); (0,1); (1,1)] = [] <-> [(0,0); (0,1); (1,1)] = ([] : list node).
Proof.
  apply (a_star_heuristic_independent (free_grid 2 2) manhattan (fun _ _ => 0%Q)
           (0,0) (1,1) _ _ 2 2).
  - unfold in_bounds. simpl. lia.
  - by vm_compute.
  - by vm_compute.
Defined.

(** ** valid_actions and a_star at the edge of the grid *)

(** The actions are removed from the list of all four, whose order the
    survivors keep. *)
Lemma valid_actions_sublist (grid : ndarray) (n : node) (acts : list Action) :
  valid_actions grid n = Ok acts -> sublist acts [WEST; EAST; NORTH; SOUTH].
Proof.
  destruct n as [x y]. unfold valid_actions.
  destruct (blocked (x - 1 <? 0) grid (x - 1) y) as [bN|]; [|done].
  destruct (blocked (x + 1 >? shape0 grid - 1) grid (x + 1) y) as [bS|]; [|done].
  destruct (blocked (y - 1 <? 0) grid x (y - 1)) as [bW|]; [|done].
  destruct (blocked (y + 1 >? shape1 grid - 1) grid x (y + 1)) as [bE|]; [|done].
  simpl. intros [= <-].
  destruct bN, bS, bW, bE; simpl; 
    repeat first [apply sublist_nil | apply sublist_skip | apply sublist_cons].
Qed.

(** X10: on a cell of the grid [valid_actions] raises nothing and returns,
    in the order WEST, EAST, NORTH, SOUTH and without repetition, exactly
    the actions whose target cell lies on the grid and is not marked [1]. *)
Theorem valid_actions_free_moves (grid : ndarray) (n : node) :
  in_bounds grid n ->
  exists acts, valid_actions grid n = Ok acts
               /\ sublist acts [WEST; EAST; NORTH; SOUTH]
               /\ NoDup acts
               /\ forall a, a ∈ acts <-> in_bounds grid (move n a)
                                        /\ cells grid (fst (move n a)) (snd (move n a)) <> 1.
Proof.
  intros Hn. destruct (valid_actions_spec grid n Hn) as (acts & Hv & Hiff).
  exists acts. split; [done|].
  pose proof (valid_actions_sublist grid n acts Hv) as Hs.
  split; [done|]. split; [|exact Hiff].
  eapply sublist_NoDup; [|exact Hs].
  repeat (apply NoDup_cons; split;
          [rewrite ?elem_of_cons, elem_of_nil; intuition discriminate|]).
  apply NoDup_nil_2.
Qed.

Lemma valid_actions_free_moves_witness :
  exists acts, valid_actions wall_grid (0,0) = Ok acts
               /\ sublist acts [WEST; EAST; NORTH; SOUTH]
               /\ NoDup acts
               /\ forall a, a ∈ acts <-> in_bounds wall_grid (move (0,0) a)
                                        /\ cells wall_grid (fst (move (0,0) a))
                                                 (snd (move (0,0) a)) <> 1.
Proof. apply valid_actions_free_moves. unfold in_bounds. simpl. lia. Defined.

(** X11: for a node more than one row below the last row of the grid the
    first test of [valid_actions] reads [grid[x-1, y]] outside the array
    and the call raises IndexError. *)
Theorem valid_actions_beyond_rows (grid : ndarray) (x y : Z) :
  0 <= shape0 grid -> shape0 grid < x ->
  valid_actions grid (x, y) = Raise IndexError.
Proof.
  intros H0 Hx. unfold valid_actions, blocked, getitem, norm_index.
  destruct (Z.ltb_spec (x - 1) 0); [lia|].
  destruct (Z.leb_spec 0 (x - 1)); [|lia].
  destruct (Z.ltb_spec (x - 1) (shape0 grid)); [lia|]. simpl.
  destruct (Z.leb_spec (- shape0 grid) (x - 1)); simpl; [|done].
  destruct (Z.ltb_spec (x - 1) 0); [lia | done].
Qed.

Lemma valid_actions_beyond_rows_witness :
  valid_actions (free_grid 3 3) (4, 1) = Raise IndexError.
Proof. apply valid_actions_beyond_rows; simpl; lia. Defined.

(** X12: started more than one row below the last row of the grid, with a
    goal other than the start, [a_star] raises the IndexError of that
    read. *)
Theorem a_star_start_beyond_rows (grid : ndarray) (h : node -> node -> Q)
    (start goal : node) :
  0 <= shape0 grid -> shape0 grid < fst start -> start <> goal ->
  a_star grid h start goal = Raise IndexError.
Proof.
  intros H0 Hx Hne. destruct start as [x y]. simpl in Hx.
  assert (Hv : valid_actions grid (x, y) = Raise IndexError).
  { unfold valid_actions, blocked, getitem, norm_index.
    destruct (Z.ltb_spec (x - 1) 0); [lia|].
    destruct (Z.leb_spec 0 (x - 1)); [|lia].
    destruct (Z.ltb_spec (x - 1) (shape0 grid)); [lia|]. simpl.
    destruct (Z.leb_spec (- shape0 grid) (x - 1)); simpl; [|done].
    destruct (Z.ltb_spec (x - 1) 0); [lia | done]. }
  unfold a_star, search_fuel. cbn -[valid_actions].
  destruct (node_eqb_spec (x, y) (x, y)); [|done].
  destruct (node_eqb_spec (x, y) goal); [done|].
  cbn -[valid_actions]. by rewrite Hv.
Qed.

Lemma a_star_start_beyond_rows_witness :
  a_star (free_grid 3 3) manhattan (4, 1) (0, 0) = Raise IndexError.
Proof. apply a_star_start_beyond_rows; simpl; (lia || done). Defined.


(** ** The grid create_grid builds *)

Lemma Qltb_lt (x y : Q) : Qltb x y = true <-> (x < y)%Q.
Proof.
  unfold Qltb. rewrite Qlt_alt. destruct (x ?= y)%Q; split; congruence.
Qed.

(** The offsets and the shape depend on the obstacle table alone. *)
Lemma create_grid_frame (data : list obstacle) (da sd : Q)
    (grid : ndarray) (north_min east_min : Z) :
  create_grid data da sd = Ok (grid, north_min, east_min) ->
  exists o os,
    data = o :: os
    /\ north_min = Qfloor (np_min (north o - d_north o) (map (fun r => north r - d_north r) os)%Q)
    /\ east_min = Qfloor (np_min (east o - d_east o) (map (fun r => east r - d_east r) os)%Q)
    /\ north_min + shape0 grid
       = Qceiling (np_max (north o + d_north o) (map (fun r => north r + d_north r) os)%Q)
    /\ east_min + shape1 grid
       = Qceiling (np_max (east o + d_east o) (map (fun r => east r + d_east r) os)%Q)
    /\ 0 <= shape0 grid /\ 0 <= shape1 grid.
Proof.
  unfold create_grid. destruct data as [|o os]; [done|].
  set (nm := Qfloor _). set (nM := Qceiling _). set (em := Qfloor _). set (eM := Qceiling _).
  destruct (Z.ltb_spec (nM - nm) 0); [done|].
  destruct (Z.ltb_spec (eM - em) 0); [done|]. simpl orb. cbv iota.
  intros [= <- <- <-]. exists o, os.
  destruct (render_all_cells nm em (nM - nm) da sd (o :: os) (zeros (nM - nm) (eM - em)) 0 0)
    as (Hs0 & Hs1 & _).
  simpl in Hs0, Hs1. rewrite Hs0, Hs1.
  split; [done|]. split; [done|]. split; [done|]. split; [lia|]. split; [lia|]. lia.
Qed.

Lemma np_min_le (xs : list Q) :
  forall x : Q, (np_min x xs <= x)%Q /\ forall y, y ∈ xs -> (np_min x xs <= y)%Q.
Proof.
  unfold np_min. induction xs as [|z xs IH]; intros x; simpl.
  - split; [apply Qle_refl|]. intros y Hy. by apply elem_of_nil in Hy.
  - destruct (IH (Qmin x z)) as [Hm Hall]. split.
    + eapply Qle_trans; [exact Hm | apply Q.le_min_l].
    + intros y [->|Hy]%elem_of_cons; [|by apply Hall].
      eapply Qle_trans; [exact Hm | apply Q.le_min_r].
Qed.

Lemma np_max_ge (xs : list Q) :
  forall x : Q, (x <= np_max x xs)%Q /\ forall y, y ∈ xs -> (y <= np_max x xs)%Q.
Proof.
  unfold np_max. induction xs as [|z xs IH]; intros x; simpl.
  - split; [apply Qle_refl|]. intros y Hy. by apply elem_of_nil in Hy.
  - destruct (IH (Qmax x z)) as [Hm Hall]. split.
    + eapply Qle_trans; [apply Q.le_max_l | exact Hm].
    + intros y [->|Hy]%elem_of_cons; [|by apply Hall].
      eapply Qle_trans; [apply Q.le_max_r | exact Hm].
Qed.

Lemma render_binary (nm em ns : Z) (da sd : Q) (data : list obstacle) :
  forall g : ndarray, binary g -> binary (fold_left (render nm em ns da sd) data g).
Proof.
  induction data as [|o data IH]; intros g Hg; simpl; [done|].
  apply IH. intros i j. unfold render. destruct (rendered da sd o); [|apply Hg].
  destruct (footprint nm em ns sd o) as [[[o0 o1] o2] o3]. simpl.
  destruct (in_slice (shape0 g) o0 (o1 + 1) i && in_slice (shape1 g) o2 (o3 + 1) j);
    [by right | apply Hg].
Qed.

(** On values clipped to [0 .. hi] the truncation [int] is monotone. *)
Lemma int_clip_mono (v w : Q) (hi : Z) :
  0 <= hi -> (v <= w)%Q ->
  int (clip v 0 (inject_Z hi)) <= int (clip w 0 (inject_Z hi)).
Proof.
  intros Hhi Hvw.
  assert (Hfloor : forall u : Q, int (clip u 0 (inject_Z hi)) = Qfloor (clip u 0 (inject_Z hi))).
  { intros u.
    assert (H0 : (0 <= clip u 0 (inject_Z hi))%Q).
    { unfold clip. apply Q.min_glb; [apply Q.le_max_r|].
      unfold Qle. simpl. lia. }
    destruct (clip u 0 (inject_Z hi)) as [n d]. unfold Qle in H0. simpl in H0.
    unfold int, Qfloor. simpl. apply Z.quot_div_nonneg; lia. }
  rewrite !Hfloor. apply Qfloor_resp_le. unfold clip.
  by apply Q.min_le_compat_r, Q.max_le_compat_r.
Qed.

(** X13: the grid [create_grid] returns holds only [0] and [1], and a
    cell holds [1] exactly when some row of the table is rendered (its top
    plus the safety distance exceeds the altitude) and the cell lies in the
    index ranges the loop body computes for that row. *)
Theorem create_grid_cells (data : list obstacle) (da sd : Q)
    (grid : ndarray) (north_min east_min : Z) :
  create_grid data da sd = Ok (grid, north_min, east_min) ->
  binary grid
  /\ forall i j : Z,
       0 <= i < shape0 grid -> 0 <= j < shape1 grid ->
       (cells grid i j = 1
        <-> exists o, o ∈ data /\ (da < alt o + d_alt o + sd)%Q
              /\ let '(o0, o1, o2, o3) :=
                   footprint north_min east_min (shape0 grid) sd o in
                 o0 <= i <= o1 /\ o2 <= j <= o3).
Proof.
  intros H. split.
  - revert H. unfold create_grid. destruct data as [|o os]; [done|].
    set (nm := Qfloor _). set (nM := Qceiling _). set (em := Qfloor _). set (eM := Qceiling _).
    destruct ((nM - nm <? 0) || (eM - em <? 0)); [done|].
    intros [= <- _ _]. apply (render_binary nm em (nM - nm) da sd (o :: os)). intros i j. by left.
  - intros i j Hi Hj. rewrite (create_grid_occupied _ _ _ _ _ _ i j H Hi Hj).
    split; intros (o & Ho & Hr & Hf); exists o; (split; [done|]); (split; [|done]);
      by apply Qltb_lt.
Qed.

Lemma create_grid_cells_witness :
  exists grid,
    create_grid strip 5 0 = Ok (grid, 0, 0)
    /\ binary grid
    /\ forall i j : Z,
         0 <= i < shape0 grid -> 0 <= j < shape1 grid ->
         (cells grid i j = 1
          <-> exists o, o ∈ strip /\ (5 < alt o + d_alt o + 0)%Q
                /\ let '(o0, o1, o2, o3) := footprint 0 0 (shape0 grid) 0 o in
                   o0 <= i <= o1 /\ o2 <= j <= o3).
Proof.
  eexists. split; [reflexivity|]. by apply (create_grid_cells strip 5 0 _ 0 0).
Defined.

(** X14: the grid spans every row of the table: each obstacle's north
    extent [north - d_north .. north + d_north] lies between the north
    offset and the offset plus the number of rows, and likewise for the east
    extent and the number of columns. *)
Theorem create_grid_spans (data : list obstacle) (da sd : Q)
    (grid : ndarray) (north_min east_min : Z) (o : obstacle) :
  create_grid data da sd = Ok (grid, north_min, east_min) -> o ∈ data ->
  (inject_Z north_min <= north o - d_north o)%Q
  /\ (north o + d_north o <= inject_Z (north_min + shape0 grid))%Q
  /\ (inject_Z east_min <= east o - d_east o)%Q
  /\ (east o + d_east o <= inject_Z (east_min + shape1 grid))%Q.
Proof.
  intros H Ho.
  destruct (create_grid_frame _ _ _ _ _ _ H) as (o1 & os & -> & -> & -> & -> & -> & _).
  pose proof (np_min_le (map (fun r => north r - d_north r)%Q os) (north o1 - d_north o1)%Q) as [Hn0 Hn].
  pose proof (np_max_ge (map (fun r => north r + d_north r)%Q os) (north o1 + d_north o1)%Q) as [HN0 HN].
  pose proof (np_min_le (map (fun r => east r - d_east r)%Q os) (east o1 - d_east o1)%Q) as [He0 He].
  pose proof (np_max_ge (map (fun r => east r + d_east r)%Q os) (east o1 + d_east o1)%Q) as [HE0 HE].
  apply elem_of_cons in Ho as [->|Ho].
  - split; [|split; [|split]].
    + eapply Qle_trans; [apply Qfloor_le | done].
    + eapply Qle_trans; [|apply Qle_ceiling]. done.
    + eapply Qle_trans; [apply Qfloor_le | done].
    + eapply Qle_trans; [|apply Qle_ceiling]. done.
  - split; [|split; [|split]].
    + eapply Qle_trans; [apply Qfloor_le|]. apply Hn.
      by apply (list_elem_of_fmap_2 (fun r => north r - d_north r)%Q).
    + eapply Qle_trans; [|apply Qle_ceiling]. apply HN.
      by apply (list_elem_of_fmap_2 (fun r => north r + d_north r)%Q).
    + eapply Qle_trans; [apply Qfloor_le|]. apply He.
      by apply (list_elem_of_fmap_2 (fun r => east r - d_east r)%Q).
    + eapply Qle_trans; [|apply Qle_ceiling]. apply HE.
      by apply (list_elem_of_fmap_2 (fun r => east r + d_east r)%Q).
Qed.

Lemma create_grid_spans_witness :
  (inject_Z 0 <= north east_box - d_north east_box)%Q
  /\ (north east_box + d_north east_box <= inject_Z (0 + 4))%Q
  /\ (inject_Z 0 <= east east_box - d_east east_box)%Q
  /\ (east east_box + d_east east_box <= inject_Z (0 + 20))%Q.
Proof.
  apply (create_grid_spans strip 5 0
           (fold_left (render 0 0 4 5 0) strip (zeros 4 20)) 0 0 east_box).
  - reflexivity.
  - unfold strip. rewrite !elem_of_cons. auto.
Defined.

(** A larger safety distance widens the index ranges of a row. *)
Lemma footprint_mono (nm em ns : Z) (sd sd' : Q) (o : obstacle) :
  0 <= ns - 1 -> (sd <= sd')%Q ->
  let '(a, b, c, d) := footprint nm em ns sd o in
  let '(a', b', c', d') := footprint nm em ns sd' o in
  a' <= a /\ b <= b' /\ c' <= c /\ d <= d'.
Proof.
  intros Hns Hsd. unfold footprint.
  assert (Hopp : (- sd' <= - sd)%Q) by by apply Qopp_le_compat.
  split; [|split; [|split]]; apply int_clip_mono; try done; unfold Qminus;
    repeat first [apply Qle_refl | done | apply Qplus_le_compat].
Qed.

(** X15: flying lower or asking for a larger safety distance never frees
    a cell: the offsets and the shape of the grid stay the same, and every
    cell marked for the one pair of parameters is marked for the other. *)
Theorem create_grid_monotone (data : list obstacle) (da da' sd sd' : Q)
    (g g' : ndarray) (nm em nm' em' : Z) :
  create_grid data da sd = Ok (g, nm, em) ->
  create_grid data da' sd' = Ok (g', nm', em') ->
  (da' <= da)%Q -> (sd <= sd')%Q ->
  nm' = nm /\ em' = em /\ shape0 g' = shape0 g /\ shape1 g' = shape1 g
  /\ forall i j : Z,
       0 <= i < shape0 g -> 0 <= j < shape1 g ->
       cells g i j = 1 -> cells g' i j = 1.
Proof.
  intros H H' Hda Hsd.
  destruct (create_grid_frame _ _ _ _ _ _ H) as (o & os & Hd & Hn & He & HN & HE & _).
  destruct (create_grid_frame _ _ _ _ _ _ H') as (o' & os' & Hd' & Hn' & He' & HN' & HE' & _).
  rewrite Hd in Hd'. injection Hd' as <- <-.
  assert (Hnm : nm' = nm) by congruence. assert (Hem : em' = em) by congruence.
  assert (Hs0 : shape0 g' = shape0 g) by lia. assert (Hs1 : shape1 g' = shape1 g) by lia.
  split; [done|]. split; [done|]. split; [done|]. split; [done|].
  intros i j Hi Hj Hc.
  apply (create_grid_occupied _ _ _ _ _ _ i j H Hi Hj) in Hc as (r & Hr & Hren & Hf).
  apply (create_grid_occupied _ _ _ _ _ _ i j H'); [lia..|].
  exists r. split; [done|]. split.
  - apply Qltb_lt. apply Qltb_lt in Hren.
    eapply Qle_lt_trans; [exact Hda|]. eapply Qlt_le_trans; [exact Hren|].
    apply Qplus_le_compat; [apply Qle_refl | done].
  - rewrite Hnm, Hem, Hs0.
    pose proof (footprint_mono nm em (shape0 g) sd sd' r ltac:(lia) Hsd) as Hm.
    destruct (footprint nm em (shape0 g) sd r) as [[[a b] c] d].
    destruct (footprint nm em (shape0 g) sd' r) as [[[a' b'] c'] d']. lia.
Qed.

Lemma create_grid_monotone_witness :
  exists g g',
    create_grid strip 10 0 = Ok (g, 0, 0)
    /\ create_grid strip 5 2 = Ok (g', 0, 0)
    /\ 0 = 0 /\ 0 = 0 /\ shape0 g' = shape0 g /\ shape1 g' = shape1 g
    /\ forall i j : Z,
         0 <= i < shape0 g -> 0 <= j < shape1 g ->
         cells g i j = 1 -> cells g' i j = 1.
Proof.
  eexists. eexists. split; [reflexivity|]. split; [reflexivity|].
  apply (create_grid_monotone strip 10 5 0 2 _ _ 0 0 0 0); [reflexivity| reflexivity | |];
    unfold Qle; simpl; lia.
Defined.


(** ** Pruning the path a_star returns *)

(** X16: [prune_path] applied to a non-empty path returned by [a_star]
    (started on a cell of the grid) returns, whatever the determinant routine
    answers, a list of waypoints that begins at [start], ends at [goal], is
    a subsequence of the path without repeated cells, and holds only
    [start] and cells that lie on the grid and are not marked [1]; when the
    routine is exact on the cells of the path, a second pruning leaves the
    waypoints unchanged. *)
Theorem prune_path_a_star (np_det : determinant) (grid : ndarray)
    (h : node -> node -> Q) (start goal : node) (path : list node) (c : Z) :
  in_bounds grid start ->
  a_star grid h start goal = Ok (path, c) -> path <> [] ->
  exists wps,
    prune_path np_det (Some path) = Ok wps
    /\ head wps = Some start /\ last wps = Some goal
    /\ sublist wps path /\ NoDup wps
    /\ (forall n, n ∈ wps ->
          n = start \/ (in_bounds grid n /\ cells grid (fst n) (snd n) <> 1))
    /\ (exact_on np_det path -> prune_path np_det (Some wps) = Ok wps).
Proof.
  intros Hstart Ha Hne.
  destruct (a_star_trace grid h start goal path c Hstart Ha Hne)
    as (_ & Hh & Hl & Hnd & Hsteps & _).
  destruct (prune_loop_total np_det (length path) 0 path ltac:(lia)) as [wps Hp].
  exists wps. split; [exact Hp|].
  destruct (prune_loop_sublist _ _ _ _ _ Hp) as [Hs Hlast].
  destruct (prune_loop_prefix _ _ _ _ _ Hnd Hp) as (Hnd' & _).
  split; [by rewrite (prune_path_head np_det path wps Hnd Hp)|].
  split; [by rewrite Hlast|]. split; [done|]. split; [done|]. split.
  - intros n Hn. apply (elem_of_sublist _ _ _ Hn) in Hs.
    apply list_elem_of_lookup in Hs as [[|i] Hi].
    + left. rewrite <- head_lookup in Hi. congruence.
    + right. destruct (path !! i) as [a|] eqn:Hai.
      * by destruct (Hsteps i a n Hai Hi) as (act & _ & Hfree).
      * apply lookup_ge_None in Hai. apply lookup_lt_Some in Hi. lia.
  - intros Hex.
    assert (H0 : corners_before 0 path) by (intros k ? ? ? Hk; lia).
    destruct (prune_loop_corners _ _ _ _ _ Hnd Hex H0 Hp) as (_ & Hc & _).
    apply prune_loop_fixed; [by eapply exact_on_sublist | done | lia].
Qed.

Lemma prune_path_a_star_witness :
  exists wps,
    prune_path exact_det (Some [(0,0); (0,1); (0,2); (1,2)]) = Ok wps
    /\ head wps = Some (0,0) /\ last wps = Some (1,2)
    /\ sublist wps [(0,0); (0,1); (0,2); (1,2)] /\ NoDup wps
    /\ (forall n, n ∈ wps ->
          n = (0,0) \/ (in_bounds (free_grid 2 3) n
                        /\ cells (free_grid 2 3) (fst n) (snd n) <> 1))
    /\ (exact_on exact_det [(0,0); (0,1); (0,2); (1,2)] ->
        prune_path exact_det (Some wps) = Ok wps).
Proof.
  apply (prune_path_a_star exact_det (free_grid 2 3) manhattan (0,0) (1,2) _ 3).
  - unfold in_bounds. simpl. lia.
  - by vm_compute.
  - done.
Defined.

(** ** The flight cycle *)

(** However [plan_path] ends, the object is left in [PLANNING] with
    [in_mission] untouched. *)
Lemma plan_path_final (np_det : determinant) (h : node -> node -> Q)
    (global_to_local : Q * Q * Q -> Q * Q * Q -> Q * Q * Q)
    (colliders : Q * Q * list obstacle) (d : MotionPlanning) :
  flight_state (final (plan_path np_det h global_to_local colliders d)) = PLANNING
  /\ in_mission (final (plan_path np_det h global_to_local colliders d)) = in_mission d.
Proof.
  unfold plan_path. destruct colliders as [[lat0 lon0] data].
  destruct (setitem _ _ _) as [t|]; [|done]. simpl.
  destruct (create_grid_on _ _ _) as [[[grid no] eo]|]; [|done].
  destruct (a_star _ _ _ _) as [[path c]|]; [|done].
  by destruct (prune_loop np_det (length path) 0 path) as [path'|].
Qed.

(** Closes a goal about the state a handler leaves once the handler has
    been reduced to its outcome. *)
Ltac settle :=
  simpl;
  try match goal with H : flight_state _ = _ |- _ => rewrite ?H end;
  try match goal with H : in_mission _ = _ |- _ => rewrite ?H end;
  first [ left; reflexivity | right; exact I | reflexivity | lia ].

(** X17: whatever the event and whatever the object, a handler leaves
    the flight state where it was or moves it along one edge of the cycle
    MANUAL, ARMING, PLANNING, TAKEOFF, WAYPOINT, LANDING, DISARMING, MANUAL;
    this also holds of the state left behind when the handler raises. *)
Theorem receive_follows_cycle (np_det : determinant) (h : node -> node -> Q)
    (global_to_local : Q * Q * Q -> Q * Q * Q -> Q * Q * Q)
    (colliders : Q * Q * list obstacle) (ev : event) (d : MotionPlanning) :
  flight_state (final (receive np_det h global_to_local colliders ev d)) = flight_state d
  \/ successor (flight_state d)
               (flight_state (final (receive np_det h global_to_local colliders ev d))).
Proof.
  destruct d as [tp wps im fs ar gu lp lv gp gh al iss].
  destruct ev as [a g|p|v|p|p]; unfold receive, store; simpl; try (by left).
  - unfold state_callback. simpl. destruct im; [|by left].
    destruct fs; simpl; try settle.
    + destruct a; [|settle]. right.
      by rewrite (proj1 (plan_path_final np_det h global_to_local colliders _)).
    + destruct (truth _); settle.
    + unfold takeoff_transition. simpl.
      destruct tp as [|t0 [|t1 [|t2 tp]]]; settle.
  - unfold local_position_callback. simpl.
    destruct fs; simpl; try settle.
    + destruct tp as [|t0 [|t1 [|t2 tp]]]; simpl; try settle.
      destruct (Qltb _ _); [|settle].
      unfold waypoint_transition. simpl.
      destruct wps as [|[|n [|e [|al' [|hd w]]]] rest]; settle.
    + destruct tp as [|tn tp']; [settle|]. cbv zeta.
      destruct p as [[ln le] lz].
      destruct (Qltb _ _); [|settle].
      destruct (0 <? _).
      * unfold waypoint_transition. simpl.
        destruct wps as [|[|n [|e [|al' [|hd w]]]] rest]; settle.
      * destruct lv as [[vn ve] vz].
        destruct (Qltb _ _); settle.
  - unfold velocity_callback. simpl.
    destruct fs; simpl; try settle.
    destruct (Qltb _ _); [|settle].
    destruct (Qltb _ _); settle.
Qed.

Lemma receive_progress (np_det : determinant) (h : node -> node -> Q)
    (global_to_local : Q * Q * Q -> Q * Q * Q -> Q * Q * Q)
    (colliders : Q * Q * list obstacle) (ev : event) (d : MotionPlanning) :
  progress d <= progress (final (receive np_det h global_to_local colliders ev d)).
Proof.
  destruct d as [tp wps im fs ar gu lp lv gp gh al iss].
  destruct ev as [a g|p|v|p|p]; unfold receive, store; simpl; try done.
  - unfold state_callback. simpl. destruct im; [|done].
    destruct fs; simpl; try done.
    + destruct a; [|done]. unfold progress.
      destruct (plan_path_final np_det h global_to_local colliders
                  {| target_position := tp; waypoints := wps; in_mission := true;
                     flight_state := ARMING; armed := true; guided := g;
                     local_position := lp; local_velocity := lv; global_position := gp;
                     global_home := gh; altitude := al; issued := iss |}) as [-> ->].
      simpl. lia.
    + destruct (truth _); [|done]. unfold progress. simpl. lia.
    + unfold takeoff_transition. simpl.
      destruct tp as [|t0 [|t1 [|t2 tp]]]; unfold progress; simpl; lia.
  - unfold local_position_callback. simpl.
    destruct fs; simpl; try done.
    + destruct tp as [|t0 [|t1 [|t2 tp]]]; simpl; try done.
      destruct (Qltb _ _); [|done].
      unfold waypoint_transition. simpl.
      destruct wps as [|[|n [|e [|al' [|hd w]]]] rest]; unfold progress; simpl; lia.
    + destruct tp as [|tn tp']; [done|]. cbv zeta.
      destruct p as [[ln le] lz].
      destruct (Qltb _ _); [|done].
      destruct (0 <? _).
      * unfold waypoint_transition. simpl.
        destruct wps as [|[|n [|e [|al' [|hd w]]]] rest]; unfold progress; simpl; lia.
      * destruct lv as [[vn ve] vz].
        destruct (Qltb _ _); [|done]. unfold progress. simpl. lia.
  - unfold velocity_callback. simpl.
    destruct fs; simpl; try done.
    destruct (Qltb _ _); [|done].
    destruct (Qltb _ _); [|done]. unfold progress. simpl. lia.
Qed.

(** X18: along any sequence of events the object only moves forward
    through the cycle, the end of the mission counting as the last
    position: no handler takes it back to a state it has left, so planning,
    takeoff and landing are each entered at most once. *)
Theorem run_never_goes_back (np_det : determinant) (h : node -> node -> Q)
    (global_to_local : Q * Q * Q -> Q * Q * Q -> Q * Q * Q)
    (colliders : Q * Q * list obstacle) (evs : list event) :
  forall d : MotionPlanning,
    progress d <= progress (final (run np_det h global_to_local colliders evs d)).
Proof.
  induction evs as [|ev evs IH]; intros d; simpl; [done|].
  pose proof (receive_progress np_det h global_to_local colliders ev d) as Hstep.
  destruct (receive np_det h global_to_local colliders ev d) as [d'|e d'];
    simpl in Hstep |- *; [|done].
  specialize (IH d'). lia.
Qed.

(** X19: once the object is back in [MANUAL] with [in_mission] cleared,
    no sequence of events raises, changes the flight state, the target or
    the waypoints, or makes a handler issue a request. *)
Theorem run_after_mission (np_det : determinant) (h : node -> node -> Q)
    (global_to_local : Q * Q * Q -> Q * Q * Q -> Q * Q * Q)
    (colliders : Q * Q * list obstacle) (evs : list event) :
  forall d : MotionPlanning,
    flight_state d = MANUAL -> in_mission d = false ->
    exists d', run np_det h global_to_local colliders evs d = Normal d'
               /\ flight_state d' = MANUAL /\ in_mission d' = false
               /\ issued d' = issued d
               /\ waypoints d' = waypoints d
               /\ target_position d' = target_position d.
Proof.
  induction evs as [|ev evs IH]; intros d Hfs Him; simpl; [by exists d|].
  assert (Hr : receive np_det h global_to_local colliders ev d = Normal (store ev d)).
  { destruct ev as [a g|p|v|p|p]; unfold receive; try done.
    - unfold state_callback. change (in_mission (store (STATE a g) d)) with (in_mission d).
      by rewrite Him.
    - unfold local_position_callback.
      change (flight_state (store (LOCAL_POSITION p) d)) with (flight_state d).
      by rewrite Hfs.
    - unfold velocity_callback.
      change (flight_state (store (LOCAL_VELOCITY v) d)) with (flight_state d).
      by rewrite Hfs. }
  rewrite Hr. destruct (IH (store ev d) Hfs Him) as (d' & Hrun & ? & ? & ? & ? & ?).
  exists d'. done.
Qed.

Lemma run_after_mission_witness :
  exists d', run exact_det manhattan offset_from_home yard
                 [STATE true true; LOCAL_POSITION origin; LOCAL_VELOCITY origin; STATE false false]
                 landed_drone = Normal d'
             /\ flight_state d' = MANUAL /\ in_mission d' = false
             /\ issued d' = issued landed_drone
             /\ waypoints d' = waypoints landed_drone
             /\ target_position d' = target_position landed_drone.
Proof. apply run_after_mission; reflexivity. Defined.

(** X20: a handler that leaves the flight state and the number of stored
    waypoints as they were has issued no request and has not changed the
    target: every request to the vehicle comes with a transition or with
    the consumption of a waypoint. *)
Theorem receive_quiet (np_det : determinant) (h : node -> node -> Q)
    (global_to_local : Q * Q * Q -> Q * Q * Q -> Q * Q * Q)
    (colliders : Q * Q * list obstacle) (ev : event) (d : MotionPlanning) :
  flight_state (final (receive np_det h global_to_local colliders ev d)) = flight_state d ->
  length (waypoints (final (receive np_det h global_to_local colliders ev d)))
  = length (waypoints d) ->
  issued (final (receive np_det h global_to_local colliders ev d)) = issued d
  /\ target_position (final (receive np_det h global_to_local colliders ev d))
     = target_position d.
Proof.
  destruct d as [tp wps im fs ar gu lp lv gp gh al iss].
  destruct ev as [a g|p|v|p|p]; unfold receive, store; simpl; try done.
  - unfold state_callback. simpl. destruct im; [|done].
    destruct fs; simpl; try done.
    + destruct a; [|done].
      rewrite (proj1 (plan_path_final np_det h global_to_local colliders _)). done.
    + destruct (truth _); done.
    + unfold takeoff_transition. simpl.
      destruct tp as [|t0 [|t1 [|t2 tp]]]; done.
  - unfold local_position_callback. simpl.
    destruct fs; simpl; try done.
    + destruct tp as [|t0 [|t1 [|t2 tp]]]; simpl; try done.
      destruct (Qltb _ _); [|done].
      unfold waypoint_transition. simpl.
      destruct wps as [|[|n [|e [|al' [|hd w]]]] rest]; done.
    + destruct tp as [|tn tp']; [done|]. cbv zeta.
      destruct p as [[ln le] lz].
      destruct (Qltb _ _); [|done].
      destruct (0 <? _) eqn:Hlen.
      * unfold waypoint_transition. simpl.
        destruct wps as [|[|n [|e [|al' [|hd w]]]] rest]; simpl; intros _ Hl; try lia.
        simpl in Hlen. discriminate Hlen.
      * destruct lv as [[vn ve] vz].
        destruct (Qltb _ _); done.
  - unfold velocity_callback. simpl.
    destruct fs; simpl; try done.
    destruct (Qltb _ _); [|done].
    destruct (Qltb _ _); done.
Qed.

Lemma receive_quiet_witness :
  issued (final (receive exact_det manhattan offset_from_home yard (LOCAL_POSITION (1, 8, -3)%Q)
                         homed_drone))
  = issued homed_drone
  /\ target_position (final (receive exact_det manhattan offset_from_home yard
                                     (LOCAL_POSITION (1, 8, -3)%Q) homed_drone))
     = target_position homed_drone.
Proof. apply receive_quiet; reflexivity. Defined.

(** ** plan_path from the grid to the waypoints *)

(** X21: when the obstacle table has two or more rows and gives a grid on
    which the vehicle's cell lies and from which the goal cell, a different
    one, can be reached, [plan_path] ends normally in [PLANNING] with the
    target altitude set, whatever the determinant routine answers; the
    waypoints it stores and writes to the connection are cells shifted back
    by the offsets, at the target altitude and heading zero; the first is
    the vehicle's cell, the last the goal cell, and every other one is a
    cell of the grid not marked [1]; from then on no sequence of events
    makes a handler raise. *)
Theorem plan_path_route (np_det : determinant) (h : node -> node -> Q)
    (global_to_local : Q * Q * Q -> Q * Q * Q -> Q * Q * Q)
    (lat0 lon0 : Q) (data : list obstacle) (d : MotionPlanning)
    (grid : ndarray) (north_offset east_offset : Z) :
  (3 <= length (target_position d))%nat ->
  (2 <= length data)%nat ->
  create_grid data (inject_Z TARGET_ALTITUDE) (inject_Z SAFETY_DISTANCE)
  = Ok (grid, north_offset, east_offset) ->
  in_bounds grid (grid_start global_to_local d north_offset east_offset) ->
  grid_start global_to_local d north_offset east_offset
  <> grid_goal global_to_local d north_offset east_offset ->
  reachable grid (grid_start global_to_local d north_offset east_offset)
            (grid_goal global_to_local d north_offset east_offset) ->
  exists d' wps,
    plan_path np_det h global_to_local (lat0, lon0, data) d = Normal d'
    /\ flight_state d' = PLANNING
    /\ nth_error (target_position d') 2 = Some (inject_Z TARGET_ALTITUDE)
    /\ waypoints d'
       = map (fun p => [inject_Z (fst p + north_offset); inject_Z (snd p + east_offset);
                        inject_Z TARGET_ALTITUDE; 0%Q]) wps
    /\ head wps = Some (grid_start global_to_local d north_offset east_offset)
    /\ last wps = Some (grid_goal global_to_local d north_offset east_offset)
    /\ (forall n, n ∈ wps ->
          n = grid_start global_to_local d north_offset east_offset
          \/ (in_bounds grid n /\ cells grid (fst n) (snd n) <> 1))
    /\ issued d' = issued d ++ [set_home_position lon0 lat0 0; write (waypoints d')]
    /\ recoverable np_det h global_to_local (lat0, lon0, data) d'.
Proof.
  intros Hlen Hrows Hgrid Hstart Hne Hreach.
  set (start := grid_start global_to_local d north_offset east_offset) in *.
  set (goal := grid_goal global_to_local d north_offset east_offset) in *.
  destruct (a_star_reachable grid h start goal Hstart Hne Hreach)
    as (path & c & Ha & _ & Hh & _).
  assert (Hpne : path <> []) by (by intros ->).
  destruct (a_star_trace grid h start goal path c Hstart Ha Hpne)
    as (_ & _ & Hl & Hnd & Hsteps & _).
  destruct (prune_loop_total np_det (length path) 0 path ltac:(lia)) as [wps Hp].
  destruct (prune_loop_sublist _ _ _ _ _ Hp) as [Hs Hlast].
  pose proof (prune_path_head np_det path wps Hnd Hp) as Hhead.
  destruct (setitem (target_position d) 2 (inject_Z TARGET_ALTITUDE)) as [t|] eqn:Ht.
  2:{ destruct (target_position d) as [|t0 [|t1 [|t2 tp]]]; simpl in Hlen, Ht; (lia || done). }
  assert (Hplan : plan_path np_det h global_to_local (lat0, lon0, data) d
            = Normal (send_waypoints
                (set_waypoints
                   (map (fun p => [inject_Z (fst p + north_offset);
                                   inject_Z (snd p + east_offset);
                                   inject_Z TARGET_ALTITUDE; 0%Q]) wps)
                   (issue (set_home_position lon0 lat0 0)
                      (set_target_position t (set_flight_state PLANNING d)))))).
  { unfold plan_path. simpl. rewrite Ht. simpl.
    rewrite (create_grid_on_loadtxt data _ _ Hrows), Hgrid.
    fold start goal.
    change (grid_start global_to_local _ north_offset east_offset) with start.
    change (grid_goal global_to_local _ north_offset east_offset) with goal.
    rewrite Ha. unfold prune_path. by rewrite Hp. }
  eexists. exists wps. split; [exact Hplan|]. simpl.
  split; [done|]. split; [exact (setitem_nth_error _ _ _ _ Ht)|]. split; [done|].
  split; [by rewrite Hhead|]. split; [by rewrite Hlast|]. split; [|split].
  - intros n Hn. apply (elem_of_sublist _ _ _ Hn) in Hs.
    apply list_elem_of_lookup in Hs as [[|i] Hi].
    + left. rewrite <- head_lookup in Hi. congruence.
    + right. destruct (path !! i) as [a|] eqn:Hai.
      * by destruct (Hsteps i a n Hai Hi) as (act & _ & Hfree).
      * apply lookup_ge_None in Hai. apply lookup_lt_Some in Hi. lia.
  - by rewrite <- app_assoc.
  - apply (plan_path_recoverable np_det h global_to_local (lat0, lon0, data) d _ Hplan).
    simpl. destruct wps; [|done]. simpl in Hhead. by rewrite Hh in Hhead.
Qed.

Lemma plan_path_route_witness :
  exists grid d' wps,
    create_grid (snd yard) (inject_Z TARGET_ALTITUDE) (inject_Z SAFETY_DISTANCE)
    = Ok (grid, 0, 0)
    /\ plan_path exact_det manhattan offset_from_home yard homed_drone = Normal d'
    /\ flight_state d' = PLANNING
    /\ nth_error (target_position d') 2 = Some (inject_Z TARGET_ALTITUDE)
    /\ waypoints d'
       = map (fun p => [inject_Z (fst p + 0); inject_Z (snd p + 0);
                        inject_Z TARGET_ALTITUDE; 0%Q]) wps
    /\ head wps = Some (grid_start offset_from_home homed_drone 0 0)
    /\ last wps = Some (grid_goal offset_from_home homed_drone 0 0)
    /\ (forall n, n ∈ wps ->
          n = grid_start offset_from_home homed_drone 0 0
          \/ (in_bounds grid n /\ cells grid (fst n) (snd n) <> 1))
    /\ issued d' = issued homed_drone ++ [set_home_position (-122) 37 0; write (waypoints d')]
    /\ recoverable exact_det manhattan offset_from_home yard d'.
Proof.
  exists (fold_left (render 0 0 10 5 5) (snd yard) (zeros 10 10)).
  assert (Hfree : forall n : node,
            n = (1,7) \/ n = (2,7) ->
            free (fold_left (render 0 0 10 5 5) (snd yard) (zeros 10 10)) n).
  { intros n [-> | ->]; (split; [split; simpl; lia | vm_compute; discriminate]). }
  destruct (plan_path_route exact_det manhattan offset_from_home 37 (-122) (snd yard)
              homed_drone (fold_left (render 0 0 10 5 5) (snd yard) (zeros 10 10)) 0 0)
    as (d' & wps & H).
  - simpl. lia.
  - simpl. lia.
  - reflexivity.
  - change (in_bounds (fold_left (render 0 0 10 5 5) (snd yard) (zeros 10 10)) (1,8)).
    split; simpl; lia.
  - change ((1,8) <> ((2,7) : node)). discriminate.
  - change (reachable (fold_left (render 0 0 10 5 5) (snd yard) (zeros 10 10)) (1,8) (2,7)).
    apply (rtc_l _ _ (1,7)); [exists WEST; split; [reflexivity | apply Hfree; by left]|].
    apply (rtc_l _ _ (2,7)); [exists SOUTH; split; [reflexivity | apply Hfree; by right]|].
    apply rtc_refl.
  - exists d', wps. split; [reflexivity|]. exact H.
Defined.

(** X22: when the obstacle table has two or more rows and the vehicle's
    cell is the goal cell, the search raises KeyError and [plan_path] ends by
    that exception: the object is left in [PLANNING] with the home position
    requested, no waypoint stored and nothing written to the connection. *)
Theorem plan_path_same_cell (np_det : determinant) (h : node -> node -> Q)
    (global_to_local : Q * Q * Q -> Q * Q * Q -> Q * Q * Q)
    (lat0 lon0 : Q) (data : list obstacle) (d : MotionPlanning)
    (grid : ndarray) (north_offset east_offset : Z) :
  (3 <= length (target_position d))%nat ->
  (2 <= length data)%nat ->
  create_grid data (inject_Z TARGET_ALTITUDE) (inject_Z SAFETY_DISTANCE)
  = Ok (grid, north_offset, east_offset) ->
  grid_start global_to_local d north_offset east_offset
  = grid_goal global_to_local d north_offset east_offset ->
  exists d',
    plan_path np_det h global_to_local (lat0, lon0, data) d = Raised KeyError d'
    /\ flight_state d' = PLANNING
    /\ waypoints d' = waypoints d
    /\ issued d' = issued d ++ [set_home_position lon0 lat0 0].
Proof.
  intros Hlen Hrows Hgrid Heq.
  destruct (setitem (target_position d) 2 (inject_Z TARGET_ALTITUDE)) as [t|] eqn:Ht.
  2:{ destruct (target_position d) as [|t0 [|t1 [|t2 tp]]]; simpl in Hlen, Ht; (lia || done). }
  assert (Hkey : forall s : node, a_star grid h s s = Raise KeyError).
  { intros s. unfold a_star, search_fuel. simpl.
    destruct (node_eqb_spec s s); [|done]. simpl. by rewrite lookup_empty. }
  eexists. split.
  - unfold plan_path. simpl. rewrite Ht. simpl.
    rewrite (create_grid_on_loadtxt data _ _ Hrows), Hgrid.
    change (grid_start global_to_local _ north_offset east_offset)
      with (grid_start global_to_local d north_offset east_offset).
    change (grid_goal global_to_local _ north_offset east_offset)
      with (grid_goal global_to_local d north_offset east_offset).
    rewrite Heq, Hkey. reflexivity.
  - done.
Qed.

Lemma plan_path_same_cell_witness :
  exists d',
    plan_path exact_det manhattan offset_from_home yard (drone_at (-123, (375 # 10), 0)%Q)
    = Raised KeyError d'
    /\ flight_state d' = PLANNING
    /\ waypoints d' = waypoints (drone_at (-123, (375 # 10), 0)%Q)
    /\ issued d' = issued (drone_at (-123, (375 # 10), 0)%Q) ++ [set_home_position (-122) 37 0].
Proof.
  apply (plan_path_same_cell exact_det manhattan offset_from_home 37 (-122) (snd yard)
           (drone_at (-123, (375 # 10), 0)%Q)
           (fold_left (render 0 0 10 5 5) (snd yard) (zeros 10 10)) 0 0).
  - simpl. lia.
  - simpl. lia.
  - reflexivity.
  - reflexivity.
Defined.

(** X25: when the table of obstacles has a single row, or none, the array
    loaded from it is one-dimensional and [create_grid] raises IndexError on
    its first line: [plan_path] ends by that exception in [PLANNING], with
    the target altitude set and the home position requested, before any
    search; no waypoint is stored and nothing is written to the
    connection. *)
Theorem plan_path_short_table (np_det : determinant) (h : node -> node -> Q)
    (global_to_local : Q * Q * Q -> Q * Q * Q -> Q * Q * Q)
    (lat0 lon0 : Q) (data : list obstacle) (d : MotionPlanning) :
  (3 <= length (target_position d))%nat ->
  (length data < 2)%nat ->
  exists d',
    plan_path np_det h global_to_local (lat0, lon0, data) d = Raised IndexError d'
    /\ flight_state d' = PLANNING
    /\ nth_error (target_position d') 2 = Some (inject_Z TARGET_ALTITUDE)
    /\ waypoints d' = waypoints d
    /\ issued d' = issued d ++ [set_home_position lon0 lat0 0].
Proof.
  intros Hlen Hrows.
  destruct (setitem (target_position d) 2 (inject_Z TARGET_ALTITUDE)) as [t|] eqn:Ht.
  2:{ destruct (target_position d) as [|t0 [|t1 [|t2 tp]]]; simpl in Hlen, Ht; (lia || done). }
  eexists. split.
  - unfold plan_path. simpl. rewrite Ht. simpl.
    destruct data as [|o [|o' data]]; [reflexivity | reflexivity | simpl in Hrows; lia].
  - simpl. split; [done|]. split; [exact (setitem_nth_error _ _ _ _ Ht)|]. done.
Qed.

Lemma plan_path_short_table_witness :
  exists d',
    plan_path exact_det manhattan offset_from_home (37, -122, [west_box])%Q homed_drone
    = Raised IndexError d'
    /\ flight_state d' = PLANNING
    /\ nth_error (target_position d') 2 = Some (inject_Z TARGET_ALTITUDE)
    /\ waypoints d' = waypoints homed_drone
    /\ issued d' = issued homed_drone ++ [set_home_position (-122) 37 0].
Proof. apply plan_path_short_table; simpl; lia. Defined.

(** ** Waypoints in flight *)

(** From takeoff on, a handler either leaves the waypoints and the
    requested positions alone or pops the first waypoint and requests
    it. *)
Lemma receive_pops (np_det : determinant) (h : node -> node -> Q)
    (global_to_local : Q * Q * Q -> Q * Q * Q -> Q * Q * Q)
    (colliders : Q * Q * list obstacle) (ev : event) (d : MotionPlanning) :
  3 <= progress d ->
  Forall (fun w : list Q => length w = 4%nat) (waypoints d) ->
  (waypoints (final (receive np_det h global_to_local colliders ev d)) = waypoints d
   /\ commanded (issued (final (receive np_det h global_to_local colliders ev d)))
      = commanded (issued d))
  \/ (exists w,
        waypoints d = w :: waypoints (final (receive np_det h global_to_local colliders ev d))
        /\ commanded (issued (final (receive np_det h global_to_local colliders ev d)))
           = commanded (issued d) ++ [w]).
Proof.
  destruct d as [tp wps im fs ar gu lp lv gp gh al iss].
  unfold progress. simpl. intros Hp Hall.
  assert (Hpop : forall d0 : MotionPlanning,
            waypoints d0 = wps -> issued d0 = iss ->
            (waypoints (final (waypoint_transition d0)) = wps
             /\ commanded (issued (final (waypoint_transition d0))) = commanded iss)
            \/ (exists w, wps = w :: waypoints (final (waypoint_transition d0))
                  /\ commanded (issued (final (waypoint_transition d0)))
                     = commanded iss ++ [w])).
  { intros d0 Hw Hi. unfold waypoint_transition. simpl. rewrite Hw.
    destruct wps as [|w rest]; [left; simpl; by rewrite Hw, Hi|].
    apply Forall_cons in Hall as [Hw4 _].
    destruct w as [|n [|e [|a' [|hd [|x w]]]]]; simpl in Hw4; try lia.
    right. exists [n; e; a'; hd]. simpl. split; [done|].
    rewrite Hi. unfold commanded. by rewrite omap_app. }
  destruct ev as [a g|p|v|p|p]; unfold receive, store; simpl; try (by left).
  - unfold state_callback. simpl. destruct im; [|by left].
    destruct fs; simpl; try (by left); try lia.
    destruct (truth _); [|by left]. left. simpl. split; [done|].
    unfold commanded. rewrite omap_app. simpl. by rewrite !app_nil_r.
  - unfold local_position_callback. cbn -[waypoint_transition].
    destruct fs; cbn -[waypoint_transition]; try (by left).
    + destruct tp as [|t0 [|t1 [|t2 tp]]]; cbn -[waypoint_transition]; try (by left).
      destruct (Qltb _ _); [|by left]. apply Hpop; reflexivity.
    + destruct tp as [|tn tp']; [by left|]. cbv zeta.
      destruct p as [[ln le] lz].
      destruct (Qltb _ _); [|by left].
      destruct (0 <? _); [apply Hpop; reflexivity|].
      destruct lv as [[vn ve] vz].
      destruct (Qltb _ _); [|by left]. left. simpl. split; [done|].
      unfold commanded. rewrite omap_app. simpl. by rewrite !app_nil_r.
  - unfold velocity_callback. simpl.
    destruct fs; simpl; try (by left).
    destruct (Qltb _ _); [|by left].
    destruct (Qltb _ _); [|by left]. left. simpl. split; [done|].
    unfold commanded. rewrite !omap_app. simpl. by rewrite !app_nil_r.
Qed.

(** X24: from takeoff on, the waypoints are flown in the stored order,
    none skipped and none repeated: after any sequence of events the
    waypoints still stored are the stored list without its first [k]
    entries, and the positions requested since are exactly those [k]
    entries, in order. *)
Theorem run_waypoints_in_order (np_det : determinant) (h : node -> node -> Q)
    (global_to_local : Q * Q * Q -> Q * Q * Q -> Q * Q * Q)
    (colliders : Q * Q * list obstacle) (evs : list event) :
  forall d : MotionPlanning,
    3 <= progress d ->
    Forall (fun w : list Q => length w = 4%nat) (waypoints d) ->
    exists k : nat,
      waypoints (final (run np_det h global_to_local colliders evs d)) = drop k (waypoints d)
      /\ commanded (issued (final (run np_det h global_to_local colliders evs d)))
         = commanded (issued d) ++ take k (waypoints d).
Proof.
  induction evs as [|ev evs IH]; intros d Hp Hall; simpl.
  - exists 0%nat. simpl. by rewrite !app_nil_r.
  - pose proof (receive_progress np_det h global_to_local colliders ev d) as Hp'.
    pose proof (receive_pops np_det h global_to_local colliders ev d Hp Hall) as Hstep.
    destruct (receive np_det h global_to_local colliders ev d) as [d1|e d1]; simpl in Hp', Hstep |- *.
    + assert (Hall1 : Forall (fun w : list Q => length w = 4%nat) (waypoints d1)).
      { destruct Hstep as [[-> _]|(w & Hw & _)]; [done|].
        rewrite Hw in Hall. by apply Forall_cons in Hall as [_ ?]. }
      destruct (IH d1 ltac:(lia) Hall1) as (k & Hk & Hc).
      destruct Hstep as [[Hw Hi]|(w & Hw & Hi)].
      * exists k. by rewrite Hk, Hc, Hw, Hi.
      * exists (S k). rewrite Hk, Hc, Hw, Hi. simpl. by rewrite <- app_assoc.
    + destruct Hstep as [[Hw Hi]|(w & Hw & Hi)].
      * exists 0%nat. simpl. by rewrite Hw, Hi, app_nil_r.
      * exists 1%nat. rewrite Hw, Hi. simpl. by rewrite drop_0.
Qed.

Lemma run_waypoints_in_order_witness :
  exists k : nat,
    waypoints (final (run exact_det manhattan offset_from_home yard
                          [LOCAL_POSITION (0, 0, -5)%Q; LOCAL_POSITION (1, 8, -5)%Q;
                           STATE true true]
                          airborne_drone))
    = drop k (waypoints airborne_drone)
    /\ commanded (issued (final (run exact_det manhattan offset_from_home yard
                                     [LOCAL_POSITION (0, 0, -5)%Q;
                                      LOCAL_POSITION (1, 8, -5)%Q; STATE true true]
                                     airborne_drone)))
       = commanded (issued airborne_drone) ++ take k (waypoints airborne_drone).
Proof.
  apply run_waypoints_in_order.
  - unfold progress. simpl. lia.
  - repeat constructor.
Defined.

(** ** The collinearity test on cells *)

(** X23: when the double that the determinant routine returns for three
    cells is within the tolerance of their exact determinant, the tolerance
    absorbs the rounding error: the test succeeds exactly when the three
    cells lie on one line, that is when the cross product of the two
    differences vanishes. *)
Theorem collinearity_check_exact (np_det : determinant) (p1 p2 p3 : node) :
  (Qabs (np_det (point p1) (point p2) (point p3) - inject_Z (det3 p1 p2 p3)) < epsilon)%Q ->
  collinearity_check np_det (point p1) (point p2) (point p3) = true
  <-> (fst p2 - fst p1) * (snd p3 - snd p1) = (snd p2 - snd p1) * (fst p3 - fst p1).
Proof.
  intros Hacc. unfold collinearity_check. rewrite Qltb_lt.
  set (f := np_det (point p1) (point p2) (point p3)) in *.
  assert (Hcross : det3 p1 p2 p3 = 0
                   <-> (fst p2 - fst p1) * (snd p3 - snd p1)
                       = (snd p2 - snd p1) * (fst p3 - fst p1))
    by (destruct p1, p2, p3; unfold det3; simpl; lia).
  rewrite <- Hcross. clear Hcross.
  apply Qabs_Qlt_condition in Hacc as [Hlo Hhi].
  rewrite Qabs_Qlt_condition. unfold epsilon in *.
  destruct (Z.eq_dec (det3 p1 p2 p3) 0) as [Hz|Hnz].
  - rewrite Hz in *. split; [done|]. intros _.
    change (inject_Z 0) with 0%Q in Hlo, Hhi. split; lra.
  - split; [|done]. intros [Hlo' Hhi']. exfalso.
    destruct (Z_lt_le_dec (det3 p1 p2 p3) 0) as [Hneg|Hpos].
    + assert (Hd : (inject_Z (det3 p1 p2 p3) <= - (1))%Q)
        by (unfold Qle; simpl; lia).
      lra.
    + assert (Hd : (1 <= inject_Z (det3 p1 p2 p3))%Q)
        by (unfold Qle; simpl; lia).
      lra.
Qed.

Lemma collinearity_check_exact_witness :
  collinearity_check exact_det (point (0,0)) (point (1,1)) (point (3,3)) = true
  <-> (fst (1,1) - fst (0,0)) * (snd (3,3) - snd (0,0))
      = (snd (1,1) - snd (0,0)) * (fst (3,3) - fst (0,0)).
Proof. apply collinearity_check_exact. reflexivity. Defined.
